(** * Spectron support helpers (lib/spectron-support.js)

    A shallow embedding of the helper commands that lib/spectron-support.js
    attaches to a WebdriverIO client, and of the two life-cycle helpers
    [startApplication] / [stopApplication], together with the properties the
    specification states about them.

    Conventions of the embedding.
    - A JavaScript value read from a connection model is an [option value]:
      [None] is [undefined].  A property holding [undefined] cannot be told
      from an absent one by any read this file performs ([model[field]] and
      [_.defaults]), so a model is a finite map to defined values.
    - Numbers are integers ([Z]); milliseconds are naturals in binary ([N]).
    - A promise chain is the list of callbacks registered on it with [.then],
      in registration order.
    - The remote client is a state machine over an abstract world [W]; a
      command is a function from the world to a log of the primitives it
      issued, a result or an error, and the world it leaves behind. *)

From stdpp Require Import gmap strings list fin_maps.
From Stdlib Require Import ZArith NArith Ascii String.

Open Scope string_scope.
Open Scope list_scope.

(** ** Values and truthiness *)

Inductive value : Type :=
  | VNull
  | VBool (b : bool)
  | VNum (n : Z)
  | VStr (s : string).

#[global] Instance value_eq_dec : EqDecision value.
Proof. solve_decision. Defined.

(** [if (v)] on a defined value. *)
Definition truthy_value (v : value) : bool :=
  match v with
  | VNull => false
  | VBool b => b
  | VNum n => negb (n =? 0)%Z
  | VStr s => negb (bool_decide (s = EmptyString))
  end.

(** [if (x)] on the result of a property read. *)
Definition truthy (x : option value) : bool :=
  match x with
  | Some v => truthy_value v
  | None => false
  end.

(** [a !== b]. *)
Definition strict_neq {A} `{EqDecision A} (a b : option A) : bool :=
  negb (bool_decide (a = b)).

(** ** Errors *)

Inductive error : Type :=
  | ReferenceError (name : string)
  | TypeError (msg : string)
  | AssertionError (msg : string)
  | Timeout (elapsed : N) (last : bool)
  | ClientError (msg : string).

#[global] Instance error_eq_dec : EqDecision error.
Proof. solve_decision. Defined.

(** ** Free identifiers of the module

    The file binds [_], [chai], [chaiAsPromised], [fs], [format], [path],
    [electronPrebuilt], [Application] and [debug] (lines 3-11) and its own
    functions.  Two identifiers it uses are bound nowhere in it: [assert]
    (line 68) and [Connection] (line 147).  Both are therefore looked up in
    the global scope when the line runs, and reading an unbound identifier
    throws a ReferenceError. *)

Record globals : Type := {
  g_assert : option (bool → string → error + unit);
  g_Connection : option (value → list string)
}.

(** Node's [assert(value, message)]. *)
Definition node_assert (ok : bool) (message : string) : error + unit :=
  if ok then inr tt else inl (AssertionError message).

(** The global scope of a Node process: neither identifier is a global. *)
Definition node_globals : globals :=
  {| g_assert := None; g_Connection := None |}.

(** ** Primitives of the remote client facade *)

Inductive prim : Type :=
  | Click (selector : string)
  | SetValue (selector : string) (v : value)
  | SelectByValue (selector : string) (v : value)
  | WaitForVisible (selector : string) (ms : option N) (reverse : bool)
  | WaitForExist (selector : string) (ms : N)
  | WindowByIndex (index : nat)
  | WindowHandle
  | WindowHandles.

#[global] Instance prim_eq_dec : EqDecision prim.
Proof. solve_decision. Defined.

(** ** Selectors *)

Definition dquote : string := String "034"%char EmptyString.

(** [format('input[name=%s]', field)] *)
Definition input_selector (field : string) : string :=
  "input[name=" +:+ field +:+ "]".

(** ['a span[title="' + name + '"]'] *)
Definition collection_selector (name : string) : string :=
  "a span[title=" +:+ dquote +:+ name +:+ dquote +:+ "]".

(** [format('.sidebar .list-group-item span[title="%s"]', collectionName)] *)
Definition sidebar_selector (collectionName : string) : string :=
  ".sidebar .list-group-item span[title=" +:+ dquote +:+ collectionName
    +:+ dquote +:+ "]".

(** ** fillOutForm: building the sequence *)

Definition staticFields : list string := ["hostname"; "port"; "name"].

Definition sslFields : list string :=
  ["ssl_ca"; "ssl_certificate"; "ssl_private_key"; "ssl_private_key_password"].

(** One turn of the loop body
    [if (model[field]) { sequence = sequence.then(setValue(...)) }]. *)
Definition set_field (model : gmap string value) (sequence : list prim)
    (field : string) : list prim :=
  match model !! field with
  | Some v =>
      if truthy_value v
      then sequence ++ [SetValue (input_selector field) v]
      else sequence
  | None => sequence
  end.

(** [_.each(fields, function(field) { ... })] *)
Definition each_set_field (model : gmap string value) (fields : list string)
    (sequence : list prim) : list prim :=
  foldl (set_field model) sequence fields.

(** What a call of the command function leaves behind: the callbacks it has
    registered on [sequence], and whether it returned [sequence] or threw.
    Callbacks registered before a throw stay registered. *)
Record built : Type := {
  fo_steps : list prim;
  fo_thrown : option error
}.

(** Lines 157-170. *)
Definition ssl_block (model : gmap string value) (sequence : list prim)
    : list prim :=
  match model !! "ssl" with
  | Some ssl =>
      if truthy_value ssl && strict_neq (Some ssl) (Some (VStr "NONE"))
      then each_set_field model sslFields
             (sequence ++ [SelectByValue "select[name=ssl]" ssl])
      else sequence
  | None => sequence
  end.

(** Lines 128-172. *)
Definition fillOutForm (g : globals) (model : gmap string value) : built :=
  let sequence := [] in
  let sequence := each_set_field model staticFields sequence in
  match model !! "authentication" with
  | Some auth =>
      if truthy_value auth && strict_neq (Some auth) (Some (VStr "NONE"))
      then
        let sequence :=
          sequence ++ [SelectByValue "select[name=authentication]" auth] in
        match g_Connection g with
        | None =>
            {| fo_steps := sequence;
               fo_thrown := Some (ReferenceError "Connection") |}
        | Some getFieldNames =>
            let sequence := each_set_field model (getFieldNames auth) sequence in
            {| fo_steps := ssl_block model sequence; fo_thrown := None |}
        end
      else {| fo_steps := ssl_block model sequence; fo_thrown := None |}
  | None => {| fo_steps := ssl_block model sequence; fo_thrown := None |}
  end.

(** ** Commands over the remote client

    The facade is external: how a primitive acts on the world is a parameter.
    [f_act] runs an action, [f_windowHandle] and [f_windowHandles] answer the
    two window queries with a response. *)

Record response (A : Type) : Type := { value_of : A }.
Arguments value_of {A} _.

(** Lines 42-44. *)
Definition responseValue {A} (r : response A) : A := value_of r.

Record Facade (W : Type) : Type := {
  f_act : prim → W → (error + unit) * W;
  f_windowHandle : W → (error + response string) * W;
  f_windowHandles : W → (error + response (list string)) * W
}.
Arguments f_act {W} _ _ _.
Arguments f_windowHandle {W} _ _.
Arguments f_windowHandles {W} _ _.

Record run (W A : Type) : Type := {
  r_log : list prim;
  r_res : error + A;
  r_world : W
}.
Arguments r_log {W A} _.
Arguments r_res {W A} _.
Arguments r_world {W A} _.

Definition Cmd (W A : Type) : Type := W → run W A.

Definition ret {W A} (a : A) : Cmd W A :=
  λ w, {| r_log := []; r_res := inr a; r_world := w |}.

Definition throw {W A} (e : error) : Cmd W A :=
  λ w, {| r_log := []; r_res := inl e; r_world := w |}.

(** [c.then(k)] with a fulfilment handler only, and equally the chained call
    [c.k()] of the client: [k] starts in the world [c] resolved in; when [c]
    is rejected [k] is not called and the rejection is passed on as it is. *)
Definition bind {W A B} (c : Cmd W A) (k : A → Cmd W B) : Cmd W B :=
  λ w,
    let r := c w in
    match r_res r with
    | inl e => {| r_log := r_log r; r_res := inl e; r_world := r_world r |}
    | inr a =>
        let r' := k a (r_world r) in
        {| r_log := r_log r ++ r_log r'; r_res := r_res r';
           r_world := r_world r' |}
    end.

Notation "'let*' x ':=' c 'in' k" := (bind c (λ x, k))
  (at level 10, x name, c at level 100, k at level 200).
Notation "c1 ';;' c2" := (bind c1 (λ _, c2))
  (at level 100, c2 at level 200, right associativity).

Section Client.
Context {W : Type} (F : Facade W).

Definition act (p : prim) : Cmd W unit :=
  λ w, let '(r, w') := f_act F p w in
       {| r_log := [p]; r_res := r; r_world := w' |}.

(** [this.windowHandle()] *)
Definition windowHandle : Cmd W (response string) :=
  λ w, let '(r, w') := f_windowHandle F w in
       {| r_log := [WindowHandle]; r_res := r; r_world := w' |}.

(** [this.windowHandles()] *)
Definition windowHandles : Cmd W (response (list string)) :=
  λ w, let '(r, w') := f_windowHandles F w in
       {| r_log := [WindowHandles]; r_res := r; r_world := w' |}.

(** *** The promise chain of fillOutForm

    [sequence = Promise.resolve()] followed by one
    [sequence = sequence.then(function() { return that.<step>; })] per
    registered step. *)
Definition settle (steps : list prim) : Cmd W unit :=
  foldl (λ sequence step, sequence ;; act step) (ret tt) steps.

(** The same steps, one after the other from the left. *)
Fixpoint run_list (steps : list prim) : Cmd W unit :=
  match steps with
  | [] => ret tt
  | step :: rest => act step ;; run_list rest
  end.

(** Each step starts in the world the step before it resolved in. *)
Inductive chain : list prim → W → W → Prop :=
  | chain_nil w : chain [] w w
  | chain_cons step rest w w1 w2 :
      f_act F step w = (inr tt, w1) →
      chain rest w1 w2 →
      chain (step :: rest) w w2.

(** The command [fillOutForm].  When the command function returns, the
    command settles as the returned sequence does.  When it throws, the
    command is rejected with what was thrown; the callbacks chained on
    [sequence] before the throw are detached from the command but stay
    scheduled on the resolved promise, so they still run one after the other
    and their primitives reach the client. *)
Definition fillOutFormCmd (g : globals) (model : gmap string value)
    : Cmd W unit :=
  let b := fillOutForm g model in
  match fo_thrown b with
  | Some e =>
      λ w, let detached := settle (fo_steps b) w in
           {| r_log := r_log detached; r_res := inl e;
              r_world := r_world detached |}
  | None => settle (fo_steps b)
  end.

(** Lines 177-179. *)
Definition clickConnect : Cmd W unit := act (Click "button[name=connect]").

(** *** The polling wait engine *)

(** Modelled from the spec: [waitUntil] is a primitive of the WebdriverIO
    client, not of this repository.  Section 4.1: the predicate is
    evaluated at once and then every [interval] milliseconds; the wait
    resolves as soon as the predicate yields true; once the elapsed time
    exceeds [ms] without that, it fails with a Timeout carrying the elapsed
    time and the last observed result, false.  [polls] is the number of
    evaluations that fit in the budget; the value resolved with is the
    elapsed time, which no caller reads. *)
Fixpoint poll (predicate : Cmd W bool) (interval : N) (polls : nat)
    (elapsed : N) : Cmd W N :=
  match polls with
  | O => throw (Timeout elapsed false)
  | S polls' =>
      let* b := predicate in
      if b : bool then ret elapsed
      else poll predicate interval polls' (elapsed + interval)%N
  end.

(** Modelled from the spec: the wait of section 4.1 with its budget, an
    evaluation at every multiple of [interval] up to [ms]. *)
Definition waitUntil_timed (predicate : Cmd W bool) (ms interval : N)
    : Cmd W N :=
  poll predicate interval (S (N.to_nat (ms / interval))) 0%N.

(** Modelled from the spec: [waitUntil(predicate, timeoutMs, intervalMs)],
    a deferred without a value. *)
Definition waitUntil (predicate : Cmd W bool) (ms interval : N)
    : Cmd W unit :=
  waitUntil_timed predicate ms interval ;; ret tt.

(** *** Window tracking *)

(** [x = x || d] on an optional number. *)
Definition or_default (x : option N) (d : N) : N :=
  match x with
  | Some n => if (n =? 0)%N then d else n
  | None => d
  end.

(** Lines 189-193: the predicate handed to [waitUntil]. *)
Definition waitForWindow_predicate (index : nat) (connectHandle : string)
    : Cmd W bool :=
  let* response := windowHandles in
  let handles := responseValue response in
  let newWindowHandle := handles !! index in
  ret (strict_neq newWindowHandle (Some connectHandle)).

(** Lines 184-198. *)
Definition waitForWindow (index : nat) (ms interval : option N)
    : Cmd W unit :=
  let ms := or_default ms 20000 in
  let interval := or_default interval 1000 in
  let* response := windowHandle in
  let connectHandle := responseValue response in
  waitUntil (waitForWindow_predicate index connectHandle) ms interval ;;
  act (WindowByIndex index).

(** Lines 203-205. *)
Definition waitForSchemaWindow (ms interval : option N) : Cmd W unit :=
  waitForWindow 0 ms interval.

(** Lines 210-213. *)
Definition waitForHelpDialog (ms interval : option N) : Cmd W unit :=
  waitForWindow 1 ms interval ;;
  act (WaitForVisible "div.content h1.help-entry-title" None false).

(** *** Scenarios *)

(** [_.defaults(object, source)]: a key of [source] is copied when [object]
    does not resolve it. *)
Definition defaults (object source : gmap string value)
    : gmap string value :=
  object ∪ source.

Definition connection_defaults : gmap string value :=
  {[ "hostname" := VStr "localhost"; "port" := VNum 27017 ]}.

(** Lines 244-255; [None] is a missing, null or undefined argument. *)
Definition gotoSchemaWindow (g : globals)
    (connection : option (gmap string value)) (ms : option N)
    : Cmd W unit :=
  let connection := defaults (default ∅ connection) connection_defaults in
  act (WaitForVisible "select[name=authentication]" None false) ;;
  fillOutFormCmd g connection ;;
  clickConnect ;;
  waitForSchemaWindow ms None.

(** Lines 270-272. *)
Definition waitForStatusBar : Cmd W unit :=
  act (WaitForVisible "div#statusbar" (Some 15000%N) true).

(** Lines 260-265. *)
Definition selectCollection (name : string) : Cmd W unit :=
  waitForStatusBar ;;
  act (WaitForVisible (collection_selector name) None false) ;;
  act (Click (collection_selector name)) ;;
  act (WaitForVisible "div.schema-field-list" None false).

Definition internal_suffix : string := " (internal collection)".

(** Lines 309-318. *)
Definition sampleCollection (collectionName : string) (internal : bool)
    (ms : option N) : Cmd W unit :=
  let ms := or_default ms 10000 in
  let collectionName :=
    if internal then collectionName +:+ internal_suffix
    else collectionName in
  let selector := sidebar_selector collectionName in
  act (WaitForExist selector ms) ;;
  act (Click selector) ;;
  act (WaitForVisible "#statusbar" (Some ms) false) ;;
  act (WaitForVisible "#statusbar" (Some ms) true).

End Client.

(** ** Application life cycle *)

Section Lifecycle.
(** Node's [path.join], [fs.existsSync] on the current file system, and
    the path exported by electron-prebuilt. *)
Variable path_join : list string → string.
Variable existsSync : string → bool.
Variable electronPrebuilt : string.

(** [process.env] and [process.platform]. *)
Record process : Type := {
  env : gmap string string;
  platform : string
}.

(** The options handed to [new Application({...})]; [None] is an option
    the call leaves out. *)
Record Application : Type := {
  app_path : string;
  app_args : option (list string);
  app_env : gmap string string;
  app_cwd : option string
}.

(** Lines 18-22. *)
Definition ELECTRON_EXECUTABLE_BY_PLATFORM : gmap string string :=
  {[ "linux" := path_join ["mongodb-compass-linux-x64"; "mongodb-compass"];
     "win32" := path_join ["MongoDBCompass-win32-x64"; "MongoDBCompass.exe"];
     "darwin" := path_join ["MongoDB Compass-darwin-x64";
                            "MongoDB Compass.app"; "Contents"; "MacOS";
                            "Electron"] ]}.

(** Lines 31-33; [path.join] rejects an undefined argument. *)
Definition electronExecutable (proc : process) (distDir : string)
    : error + string :=
  match ELECTRON_EXECUTABLE_BY_PLATFORM !! platform proc with
  | Some executable => inr (path_join [distDir; executable])
  | None => inl (TypeError "Path must be a string. Received undefined")
  end.

(** [if (process.env.TEST_WITH_PREBUILT)]: set and not the empty string. *)
Definition test_with_prebuilt (proc : process) : bool :=
  match env proc !! "TEST_WITH_PREBUILT" with
  | Some s => negb (bool_decide (s = EmptyString))
  | None => false
  end.

Definition executable_not_found : string :=
  "Release executable not found!  Did you run `npm run prepublish`?".

(** Lines 53-71. *)
Definition createApplication (g : globals) (proc : process)
    (distDir : string) : error + Application :=
  if test_with_prebuilt proc then
    inr {| app_path := electronPrebuilt;
           app_args := Some [path_join [distDir; ".."]];
           app_env := env proc;
           app_cwd := Some (path_join [distDir; ".."]) |}
  else
    match electronExecutable proc distDir with
    | inl e => inl e
    | inr executable =>
        match g_assert g with
        | None => inl (ReferenceError "assert")
        | Some assert =>
            match assert (existsSync executable) executable_not_found with
            | inl e => inl e
            | inr _ =>
                inr {| app_path := executable; app_args := None;
                       app_env := env proc; app_cwd := None |}
            end
        end
    end.

(** The automation calls [startApplication] makes on the application. *)
Inductive automation : Type :=
  | AppStart
  | AddCommands
  | WaitUntilWindowLoaded (ms : N).

(** [app.start()] and [app.client.waitUntilWindowLoaded(ms)] belong to
    Spectron. *)
Variable app_start : Application → error + unit.
Variable app_waitUntilWindowLoaded : Application → N → error + unit.

(** Lines 83-95. *)
Definition startApplication (g : globals) (proc : process)
    (distDir : string) : list automation * (error + Application) :=
  match createApplication g proc distDir with
  | inl e => ([], inl e)
  | inr app =>
      match app_start app with
      | inl e => ([AppStart], inl e)
      | inr _ =>
          match app_waitUntilWindowLoaded app 20000 with
          | inl e =>
              ([AppStart; AddCommands; WaitUntilWindowLoaded 20000], inl e)
          | inr _ =>
              ([AppStart; AddCommands; WaitUntilWindowLoaded 20000], inr app)
          end
      end
  end.
End Lifecycle.

Section Stop.
(** A started application: [isRunning()] reads its state, [stop()] returns
    a deferred (here its outcome) and leaves a new state. *)
Variable App : Type.
Variable isRunning : App → bool.
Variable stop : App → (error + unit) * App.

Inductive app_call : Type := CallIsRunning | CallStop.

#[global] Instance app_call_eq_dec : EqDecision app_call.
Proof. solve_decision. Defined.

Record stopped : Type := {
  s_calls : list app_call;
  s_return : error + option (error + unit);
  s_app : option App
}.

(** Lines 105-110; [None] is a null or undefined [app], and the returned
    [inr None] is [undefined]. *)
Definition stopApplication (app : option App) : stopped :=
  match app with
  | None => {| s_calls := []; s_return := inr None; s_app := None |}
  | Some a =>
      if isRunning a then
        let '(deferred, a') := stop a in
        {| s_calls := [CallIsRunning; CallStop];
           s_return := inr (Some deferred); s_app := Some a' |}
      else
        {| s_calls := [CallIsRunning]; s_return := inr None;
           s_app := Some a |}
  end.
End Stop.

(** ** Vocabulary of the properties *)

(** The step [field] contributes to a sequence, if any. *)
Definition field_step (model : gmap string value) (field : string)
    : option prim :=
  match model !! field with
  | Some v =>
      if truthy_value v then Some (SetValue (input_selector field) v)
      else None
  | None => None
  end.

(** [p] is a setValue on the input named after [field]. *)
Definition sets_input (field : string) (p : prim) : bool :=
  match p with
  | SetValue selector _ => bool_decide (selector = input_selector field)
  | _ => false
  end.

(** The steps lines 143-155 register. *)
Definition auth_steps (g : globals) (model : gmap string value) : list prim :=
  match model !! "authentication" with
  | Some auth =>
      if truthy_value auth && strict_neq (Some auth) (Some (VStr "NONE"))
      then
        SelectByValue "select[name=authentication]" auth ::
        match g_Connection g with
        | Some getFieldNames => omap (field_step model) (getFieldNames auth)
        | None => []
        end
      else []
  | None => []
  end.

(** The steps lines 157-170 register. *)
Definition ssl_steps (model : gmap string value) : list prim :=
  match model !! "ssl" with
  | Some ssl =>
      if truthy_value ssl && strict_neq (Some ssl) (Some (VStr "NONE"))
      then SelectByValue "select[name=ssl]" ssl ::
           omap (field_step model) sslFields
      else []
  | None => []
  end.

(** An authentication operation: the select on the authentication kind, or a
    setValue on the input of a field the lookup names for some kind. *)
Definition is_auth_op (g : globals) (p : prim) : Prop :=
  (∃ v, p = SelectByValue "select[name=authentication]" v) ∨
  (∃ getFieldNames auth field v,
      g_Connection g = Some getFieldNames ∧ field ∈ getFieldNames auth ∧
      p = SetValue (input_selector field) v).

(** An SSL operation: the select on the ssl kind, or a setValue on the input
    of one of the four SSL fields. *)
Definition is_ssl_op (p : prim) : Prop :=
  (∃ v, p = SelectByValue "select[name=ssl]" v) ∨
  (∃ field v, field ∈ sslFields ∧ p = SetValue (input_selector field) v).

(** The CSS attribute test [span[title="..."]]: the title is exactly
    [title]. *)
Definition span_titled (title : string) : string :=
  "span[title=" +:+ dquote +:+ title +:+ dquote +:+ "]".

(** The primitives sampleCollection issues on [selector] when none fails. *)
Definition sampleCollection_steps (selector : string) (ms : N) : list prim :=
  [WaitForExist selector ms; Click selector;
   WaitForVisible "#statusbar" (Some ms) false;
   WaitForVisible "#statusbar" (Some ms) true].

(** The primitives selectCollection issues on [selector] when none fails. *)
Definition selectCollection_steps (selector : string) : list prim :=
  [WaitForVisible "div#statusbar" (Some 15000%N) true;
   WaitForVisible selector None false; Click selector;
   WaitForVisible "div.schema-field-list" None false].

(** [misses predicate k w w']: started in [w], the predicate is evaluated
    [k] times in a row, yields false each time, and leaves [w']. *)
Inductive misses {W : Type} (predicate : Cmd W bool) : nat → W → W → Prop :=
  | misses_O w : misses predicate 0 w w
  | misses_S k w w' :
      r_res (predicate w) = inr false →
      misses predicate k (r_world (predicate w)) w' →
      misses predicate (S k) w w'.

(** ** Sample data *)

(** A lookup in the shape of mongodb-connection-model's. *)
Definition sample_getFieldNames (auth : value) : list string :=
  if decide (auth = VStr "MONGODB")
  then ["mongodb_username"; "mongodb_password"; "mongodb_database_name"]
  else if decide (auth = VStr "KERBEROS")
  then ["kerberos_principal"; "kerberos_password"; "kerberos_service_name"]
  else if decide (auth = VStr "X509") then ["x509_username"]
  else if decide (auth = VStr "LDAP") then ["ldap_username"; "ldap_password"]
  else [].

(** A global scope in which both free identifiers are bound. *)
Definition sample_globals : globals :=
  {| g_assert := Some node_assert;
     g_Connection := Some sample_getFieldNames |}.

Definition unnamed_model : gmap string value :=
  {[ "hostname" := VStr "db.example.com"; "name" := VStr EmptyString ]}.

Definition plain_model : gmap string value :=
  {[ "hostname" := VStr "db.example.com"; "port" := VNum 27018;
     "authentication" := VStr "NONE"; "mongodb_username" := VStr "arlo";
     "ssl" := VStr "NONE"; "ssl_ca" := VStr "ca.pem" ]}.

(** A client with one window, [h0], that never opens another. *)
Definition one_window : Facade nat :=
  {| f_act := λ p w,
       match p with
       | WindowByIndex index =>
           if decide (index < 1)%nat then (inr tt, S w)
           else (inl (ClientError "no such window"), S w)
       | _ => (inr tt, S w)
       end;
     f_windowHandle := λ w, (inr {| value_of := "h0" |}, w);
     f_windowHandles := λ w, (inr {| value_of := ["h0"] |}, w) |}.

(** A client whose connect window is replaced by the schema window on the
    third poll after connect is clicked.  The world counts the actions and the
    polls since the click. *)
Definition connecting : Facade (nat * option nat) :=
  {| f_act := λ p w,
       match p with
       | Click "button[name=connect]" => (inr tt, (S w.1, Some 0%nat))
       | _ => (inr tt, (S w.1, w.2))
       end;
     f_windowHandle := λ w, (inr {| value_of := "connect" |}, w);
     f_windowHandles := λ w,
       match w.2 with
       | Some polls =>
           (inr {| value_of := if decide (polls < 2)%nat then ["connect"]
                               else ["schema"] |},
            (w.1, Some (S polls)))
       | None => (inr {| value_of := ["connect"] |}, w)
       end |}.

(** A client whose status bar never shows. *)
Definition idle_statusbar : Facade nat :=
  {| f_act := λ p w,
       match p with
       | WaitForVisible "#statusbar" _ false =>
           (inl (ClientError "element (#statusbar) still not visible"), S w)
       | _ => (inr tt, S w)
       end;
     f_windowHandle := λ w, (inr {| value_of := "h0" |}, w);
     f_windowHandles := λ w, (inr {| value_of := ["h0"] |}, w) |}.

(** A client that rejects every setValue on the port input. *)
Definition port_rejected : Facade nat :=
  {| f_act := λ p w,
       match p with
       | SetValue "input[name=port]" _ =>
           (inl (ClientError "element not interactable"), S w)
       | _ => (inr tt, S w)
       end;
     f_windowHandle := λ w, (inr {| value_of := "h0" |}, w);
     f_windowHandles := λ w, (inr {| value_of := ["h0"] |}, w) |}.

(** A predicate that turns true on its fourth evaluation; the world counts
    the evaluations. *)
Definition fourth_time : Cmd nat bool :=
  λ w, {| r_log := []; r_res := inr (bool_decide (3 ≤ w)%nat);
          r_world := S w |}.

Definition never_true : Cmd nat bool :=
  λ w, {| r_log := []; r_res := inr false; r_world := S w |}.

(** ** The remaining commands *)

Section MoreCommands.
Context {W : Type} (F : Facade W).

(** Lines 218-221. *)
Definition filterHelpTopics (topic : value) : Cmd W unit :=
  act F (WaitForVisible "input[placeholder=filter]" None false) ;;
  act F (SetValue "input[placeholder=filter]" topic).

(** Lines 277-281. *)
Definition viewSampleDocuments : Cmd W unit :=
  waitForStatusBar F ;;
  act F (Click "#view_sample") ;;
  act F (WaitForVisible "div#sample_documents" None false).

(** Lines 286-290. *)
Definition refineSample (query : value) : Cmd W unit :=
  waitForStatusBar F ;;
  act F (SetValue "input#refine_input" query) ;;
  act F (Click "button#apply_button").

(** Lines 295-298. *)
Definition resetSample : Cmd W unit :=
  waitForStatusBar F ;;
  act F (Click "button#reset_button").

End MoreCommands.

(** [x && x !== 'NONE'] on the result of a property read (lines 143 and
    157). *)
Definition enabled (x : option value) : bool :=
  match x with
  | Some v => truthy_value v && strict_neq (Some v) (Some (VStr "NONE"))
  | None => false
  end.

(** The platforms lines 18-22 list. *)
Definition supported_platforms : list string := ["linux"; "win32"; "darwin"].

(** A model with nothing to fill in: an empty name, both kinds switched off
    and a key the form does not know. *)
Definition blank_model : gmap string value :=
  {[ "name" := VStr EmptyString; "authentication" := VStr "NONE";
     "ssl" := VStr "NONE"; "favourite" := VBool true ]}.

(** A model with MongoDB authentication and SSL switched on. *)
Definition secured_model : gmap string value :=
  {[ "hostname" := VStr "db.example.com";
     "authentication" := VStr "MONGODB";
     "mongodb_username" := VStr "arlo"; "mongodb_password" := VStr "s3cret";
     "ssl" := VStr "ALL"; "ssl_ca" := VStr "ca.pem";
     "ssl_private_key" := VStr "key.pem" ]}.

(** A client whose session is gone: every query and action is rejected. *)
Definition no_session : Facade nat :=
  {| f_act := λ _ w, (inl (ClientError "no such session"), w);
     f_windowHandle := λ w, (inl (ClientError "no such session"), w);
     f_windowHandles := λ w, (inl (ClientError "no such session"), w) |}.

(** A client whose status bar never goes away. *)
Definition busy_statusbar : Facade nat :=
  {| f_act := λ p w,
       match p with
       | WaitForVisible "div#statusbar" _ true =>
           (inl (ClientError "element (div#statusbar) still visible"), S w)
       | _ => (inr tt, S w)
       end;
     f_windowHandle := λ w, (inr {| value_of := "h0" |}, w);
     f_windowHandles := λ w, (inr {| value_of := ["h0"] |}, w) |}.

(** A stand-in for [path.join]: the segments joined by a slash, without
    normalisation. *)
Definition slash_join (segments : list string) : string :=
  String.concat "/" segments.

(** * Properties *)

(** ** Strings and selectors *)

Lemma length_append (s t : string) :
  String.length (s +:+ t) = (String.length s + String.length t)%nat.
Proof. induction s as [|a s IH]; simpl; [done | by rewrite IH]. Qed.

Lemma append_inj_r (s1 s2 t : string) : s1 +:+ t = s2 +:+ t → s1 = s2.
Proof.
  revert s2. induction s1 as [|a s1 IH]; intros [|b s2] H; simpl in H.
  - reflexivity.
  - apply (f_equal String.length) in H.
    rewrite ?length_append in H. simpl in H. rewrite ?length_append in H. lia.
  - apply (f_equal String.length) in H.
    rewrite ?length_append in H. simpl in H. rewrite ?length_append in H. lia.
  - injection H as -> H. f_equal. by apply IH.
Qed.

Lemma input_selector_inj (f1 f2 : string) :
  input_selector f1 = input_selector f2 → f1 = f2.
Proof.
  unfold input_selector. intros H.
  apply (inj (String.append "input[name=")) in H.
  by apply append_inj_r in H.
Qed.

Lemma SetValue_input_inj f1 v1 f2 v2 :
  SetValue (input_selector f1) v1 = SetValue (input_selector f2) v2 → f1 = f2.
Proof. intros H. apply input_selector_inj. congruence. Qed.

Lemma sidebar_selector_inj (n1 n2 : string) :
  sidebar_selector n1 = sidebar_selector n2 → n1 = n2.
Proof.
  unfold sidebar_selector. intros H.
  apply (inj (String.append ".sidebar .list-group-item span[title=")) in H.
  apply (inj (String.append dquote)) in H.
  by apply append_inj_r in H.
Qed.

Lemma append_suffix_neq (s t : string) : t ≠ EmptyString → s +:+ t ≠ s.
Proof.
  intros Ht H. apply (f_equal String.length) in H.
  rewrite length_append in H. destruct t; [done | simpl in H; lia].
Qed.

(** Closes a decidable goal about concrete data by evaluation. *)
Ltac by_evaluation := apply (bool_decide_unpack _); vm_compute; exact I.

Lemma static_ssl_disjoint (field : string) :
  field ∈ staticFields → field ∉ sslFields.
Proof.
  unfold staticFields. rewrite !elem_of_cons, elem_of_nil.
  intros [->|[->|[->|[]]]]; by_evaluation.
Qed.

(** ** The sequence fillOutForm builds *)

Lemma each_set_field_app model (fields : list string) sequence :
  each_set_field model fields sequence
  = sequence ++ omap (field_step model) fields.
Proof.
  unfold each_set_field. revert sequence.
  induction fields as [|f fields IH]; intros sequence; simpl.
  - by rewrite app_nil_r.
  - rewrite IH. unfold set_field, field_step.
    destruct (model !! f) as [v|]; [destruct (truthy_value v)|];
      simpl; by rewrite <- ?app_assoc.
Qed.

Lemma ssl_block_app model sequence :
  ssl_block model sequence = sequence ++ ssl_steps model.
Proof.
  unfold ssl_block, ssl_steps. destruct (model !! "ssl") as [ssl|].
  - destruct (truthy_value ssl && _).
    + rewrite each_set_field_app. by rewrite <- app_assoc.
    + by rewrite app_nil_r.
  - by rewrite app_nil_r.
Qed.

Lemma fillOutForm_steps g model :
  fo_steps (fillOutForm g model)
  = omap (field_step model) staticFields ++ auth_steps g model ++
    match fo_thrown (fillOutForm g model) with
    | None => ssl_steps model
    | Some _ => []
    end.
Proof.
  unfold fillOutForm, auth_steps.
  destruct (model !! "authentication") as [auth|].
  - destruct (truthy_value auth && _).
    + destruct (g_Connection g) as [getFieldNames|]; cbn [fo_steps fo_thrown].
      * rewrite ssl_block_app, !each_set_field_app.
        by rewrite <- !app_assoc.
      * rewrite each_set_field_app, app_nil_r. by rewrite <- !app_assoc.
    + cbn [fo_steps fo_thrown]. by rewrite ssl_block_app, each_set_field_app.
  - cbn [fo_steps fo_thrown]. by rewrite ssl_block_app, each_set_field_app.
Qed.

Lemma elem_of_field_steps model (fields : list string) (p : prim) :
  p ∈ omap (field_step model) fields →
  ∃ f v, f ∈ fields ∧ model !! f = Some v ∧ truthy_value v = true ∧
         p = SetValue (input_selector f) v.
Proof.
  rewrite list_elem_of_omap. intros (f & Hf & Hstep).
  unfold field_step in Hstep. destruct (model !! f) as [v|] eqn:Hv; [|done].
  destruct (truthy_value v) eqn:Ht; [|done].
  injection Hstep as <-. by exists f, v.
Qed.

Lemma field_step_elem_of model (fields : list string) f v :
  f ∈ fields → model !! f = Some v → truthy_value v = true →
  SetValue (input_selector f) v ∈ omap (field_step model) fields.
Proof.
  intros Hf Hv Ht. apply list_elem_of_omap. exists f. split; [done|].
  unfold field_step. by rewrite Hv, Ht.
Qed.

Lemma sets_input_field_step model field f p :
  field_step model f = Some p → sets_input field p = bool_decide (f = field).
Proof.
  unfold field_step. destruct (model !! f) as [v|]; [|done].
  destruct (truthy_value v); [|done]. intros [= <-]. simpl.
  apply bool_decide_ext. split; [apply input_selector_inj | by intros ->].
Qed.

Lemma filter_steps_notin model field (fields : list string) :
  field ∉ fields →
  List.filter (sets_input field) (omap (field_step model) fields) = [].
Proof.
  induction fields as [|f fields IH]; [done|].
  rewrite not_elem_of_cons. intros [Hne Hnotin]. simpl.
  destruct (field_step model f) as [p|] eqn:Hstep; [|by apply IH].
  simpl. rewrite (sets_input_field_step _ _ _ _ Hstep).
  rewrite bool_decide_false by done. by apply IH.
Qed.

Lemma filter_steps_in model field (fields : list string) :
  NoDup fields → field ∈ fields →
  List.filter (sets_input field) (omap (field_step model) fields)
  = option_list (field_step model field).
Proof.
  induction 1 as [|f fields Hfresh Hnodup IH]; [by rewrite elem_of_nil|].
  rewrite elem_of_cons. intros [->|Hin]; simpl.
  - destruct (field_step model f) as [p|] eqn:Hstep; simpl.
    + rewrite (sets_input_field_step _ _ _ _ Hstep), bool_decide_true by done.
      by rewrite filter_steps_notin.
    + by rewrite filter_steps_notin.
  - destruct (field_step model f) as [p|] eqn:Hstep; [|by apply IH].
    simpl. rewrite (sets_input_field_step _ _ _ _ Hstep).
    rewrite bool_decide_false by (intros ->; contradiction). by apply IH.
Qed.

Lemma filter_auth_steps g model field :
  (∀ getFieldNames auth,
      g_Connection g = Some getFieldNames → field ∉ getFieldNames auth) →
  List.filter (sets_input field) (auth_steps g model) = [].
Proof.
  intros Hlookup. unfold auth_steps.
  destruct (model !! "authentication") as [auth|]; [|done].
  destruct (truthy_value auth && _); [|done]. simpl.
  destruct (g_Connection g) as [getFieldNames|] eqn:Hg; [|done].
  apply filter_steps_notin. by apply Hlookup.
Qed.

Lemma filter_ssl_steps model field :
  field ∉ sslFields → List.filter (sets_input field) (ssl_steps model) = [].
Proof.
  intros Hnotin. unfold ssl_steps. destruct (model !! "ssl") as [ssl|]; [|done].
  destruct (truthy_value ssl && _); [|done]. cbn [List.filter sets_input].
  by apply filter_steps_notin.
Qed.

(** C3 (as amended): for every connection model and every static field
    (hostname, port, name), provided the authentication lookup never names
    that field, the sequence fillOutForm builds holds exactly one setValue on
    the input named after the field, carrying the model's value, when the
    model's value for the field is truthy, and no setValue on that input when
    the field is absent or holds a falsy value (empty string, 0, false,
    null). *)
Theorem fillOutForm_static_fields g model field :
  (∀ getFieldNames auth,
      g_Connection g = Some getFieldNames → field ∉ getFieldNames auth) →
  field ∈ staticFields →
  List.filter (sets_input field) (fo_steps (fillOutForm g model))
  = match model !! field with
    | Some v =>
        if truthy_value v then [SetValue (input_selector field) v] else []
    | None => []
    end.
Proof.
  intros Hlookup Hstatic.
  rewrite fillOutForm_steps, !List.filter_app.
  rewrite filter_auth_steps by done.
  assert (List.filter (sets_input field)
            match fo_thrown (fillOutForm g model) with
            | Some _ => []
            | None => ssl_steps model
            end = []) as ->.
  { destruct (fo_thrown _); [done|].
    by apply filter_ssl_steps, static_ssl_disjoint. }
  rewrite filter_steps_in; [|by_evaluation|done].
  rewrite !app_nil_r. unfold field_step.
  destruct (model !! field) as [v|]; [by destruct (truthy_value v)|done].
Qed.

Lemma sample_lookup_not_static getFieldNames auth field :
  g_Connection sample_globals = Some getFieldNames →
  field ∈ staticFields → field ∉ getFieldNames auth.
Proof.
  intros [= <-]. unfold staticFields, sample_getFieldNames.
  rewrite !elem_of_cons, elem_of_nil.
  intros [->|[->|[->|[]]]]; repeat case_decide; by_evaluation.
Qed.

Lemma fillOutForm_static_fields_witness :
  List.filter (sets_input "hostname")
    (fo_steps (fillOutForm sample_globals unnamed_model))
  = [SetValue "input[name=hostname]" (VStr "db.example.com")].
Proof.
  apply (fillOutForm_static_fields sample_globals unnamed_model "hostname").
  - intros getFieldNames auth Hg.
    apply (sample_lookup_not_static _ _ _ Hg). by_evaluation.
  - by_evaluation.
Defined.

(** C3 (as stated) fails: [name] is present in the model, with the empty
    string as its value, and no setValue is issued for it. *)
Lemma fillOutForm_present_field_skipped :
  ¬ (∀ field,
        field ∈ staticFields → is_Some (unnamed_model !! field) →
        List.length (List.filter (sets_input field)
                  (fo_steps (fillOutForm sample_globals unnamed_model)))
        = 1%nat).
Proof.
  intros H. specialize (H "name").
  assert (List.length (List.filter (sets_input "name")
            (fo_steps (fillOutForm sample_globals unnamed_model))) = 0%nat)
    as Hnone by (vm_compute; reflexivity).
  rewrite Hnone in H. discriminate H.
  - by_evaluation.
  - by eexists.
Qed.

Lemma auth_steps_disabled g model :
  model !! "authentication" = None ∨
  model !! "authentication" = Some (VStr "NONE") →
  auth_steps g model = [] ∧ fo_thrown (fillOutForm g model) = None.
Proof.
  unfold auth_steps, fillOutForm. by intros [-> | ->].
Qed.

Lemma ssl_steps_disabled model :
  model !! "ssl" = None ∨ model !! "ssl" = Some (VStr "NONE") →
  ssl_steps model = [].
Proof.
  unfold ssl_steps. by intros [-> | ->].
Qed.

Lemma elem_of_auth_steps g model (p : prim) :
  p ∈ auth_steps g model →
  (∃ v, p = SelectByValue "select[name=authentication]" v) ∨
  (∃ getFieldNames auth field v,
      g_Connection g = Some getFieldNames ∧ field ∈ getFieldNames auth ∧
      p = SetValue (input_selector field) v).
Proof.
  unfold auth_steps. destruct (model !! "authentication") as [auth|];
    [|by rewrite elem_of_nil].
  destruct (truthy_value auth && _); [|by rewrite elem_of_nil].
  rewrite elem_of_cons. intros [-> | Hin]; [left; by eexists|].
  destruct (g_Connection g) as [getFieldNames|]; [|by rewrite elem_of_nil in Hin].
  apply elem_of_field_steps in Hin as (f & v & Hf & _ & _ & ->).
  right. by exists getFieldNames, auth, f, v.
Qed.

Lemma elem_of_ssl_steps model (p : prim) :
  p ∈ ssl_steps model → is_ssl_op p.
Proof.
  unfold ssl_steps. destruct (model !! "ssl") as [ssl|];
    [|by rewrite elem_of_nil].
  destruct (truthy_value ssl && _); [|by rewrite elem_of_nil].
  rewrite elem_of_cons. intros [-> | Hin]; [left; by eexists|].
  apply elem_of_field_steps in Hin as (f & v & Hf & _ & _ & ->).
  right. by exists f, v.
Qed.

(** C4: for every connection model, with a lookup that names neither a
    static nor an SSL field: when [authentication] is absent or "NONE", no
    step of the sequence is an authentication operation (neither the
    selectByValue on the authentication kind nor a setValue of a field the
    lookup names); when [ssl] is absent or "NONE", no step is an SSL
    operation (neither the selectByValue on the ssl kind nor a setValue on
    one of the four SSL inputs). *)
Theorem fillOutForm_auth_ssl_guards g model :
  (∀ getFieldNames auth field,
      g_Connection g = Some getFieldNames → field ∈ getFieldNames auth →
      (field ∉ staticFields) ∧ (field ∉ sslFields)) →
  (model !! "authentication" = None ∨
   model !! "authentication" = Some (VStr "NONE") →
   ∀ p, p ∈ fo_steps (fillOutForm g model) → ¬ is_auth_op g p) ∧
  (model !! "ssl" = None ∨ model !! "ssl" = Some (VStr "NONE") →
   ∀ p, p ∈ fo_steps (fillOutForm g model) → ¬ is_ssl_op p).
Proof.
  intros Hlookup. split.
  - intros Hoff p. rewrite fillOutForm_steps.
    destruct (auth_steps_disabled g model Hoff) as [-> ->].
    rewrite app_nil_l, elem_of_app. intros Hp Hauth.
    assert (∃ f v, (f ∈ staticFields ∨ f ∈ sslFields) ∧
                   (p = SetValue (input_selector f) v ∨
                    p = SelectByValue "select[name=ssl]" v))
      as (f & v & Hf & Hshape).
    { destruct Hp as [Hp | Hp].
      - apply elem_of_field_steps in Hp as (f & v & Hf & _ & _ & ->).
        exists f, v. auto.
      - apply elem_of_ssl_steps in Hp as [[v ->] | (f & v & Hf & ->)].
        + exists "ssl_ca", v. split; [right; by_evaluation | auto].
        + exists f, v. auto. }
    destruct Hauth as [[v' ->] | (getF & auth & field & v' & Hg & Hin & ->)].
    + by destruct Hshape.
    + destruct Hshape as [Heq | Heq]; [|done].
      apply SetValue_input_inj in Heq as ->.
      destruct (Hlookup _ _ _ Hg Hin) as [Hns Hnl]. by destruct Hf.
  - intros Hoff p. rewrite fillOutForm_steps.
    rewrite (ssl_steps_disabled model Hoff).
    assert (match fo_thrown (fillOutForm g model) with
            | Some _ => [] | None => @nil prim end = []) as ->
      by (by destruct (fo_thrown _)).
    rewrite app_nil_r, elem_of_app. intros Hp Hssl.
    destruct Hp as [Hp | Hp].
    + apply elem_of_field_steps in Hp as (f & v & Hf & _ & _ & ->).
      destruct Hssl as [[v' Heq] | (field & v' & Hin & Heq)]; [done|].
      apply SetValue_input_inj in Heq as ->.
      by apply (static_ssl_disjoint field).
    + apply elem_of_auth_steps in Hp
        as [[v ->] | (getF & auth & f & v & Hg & Hin & ->)].
      * destruct Hssl as [[v' Heq] | (field & v' & _ & Heq)]; done.
      * destruct Hssl as [[v' Heq] | (field & v' & Hin' & Heq)]; [done|].
        apply SetValue_input_inj in Heq as ->.
        by destruct (Hlookup _ _ _ Hg Hin).
Qed.

Lemma sample_lookup_apart getFieldNames auth (field : string) :
  g_Connection sample_globals = Some getFieldNames →
  field ∈ getFieldNames auth →
  (field ∉ staticFields) ∧ (field ∉ sslFields).
Proof.
  intros [= <-]. unfold sample_getFieldNames.
  repeat case_decide; rewrite ?elem_of_cons, elem_of_nil; intros Hin;
    repeat (destruct Hin as [-> | Hin]; [split; by_evaluation|]); done.
Qed.

Lemma fillOutForm_auth_ssl_guards_witness :
  (∀ p, p ∈ fo_steps (fillOutForm sample_globals plain_model) →
        ¬ is_auth_op sample_globals p) ∧
  (∀ p, p ∈ fo_steps (fillOutForm sample_globals plain_model) →
        ¬ is_ssl_op p).
Proof.
  destruct (fillOutForm_auth_ssl_guards sample_globals plain_model
              sample_lookup_apart) as [Hauth Hssl].
  split.
  - apply Hauth. right. reflexivity.
  - apply Hssl. right. reflexivity.
Defined.

(** ** Sequences of steps *)

Section Sequencer.
Context {W : Type} (F : Facade W).

Lemma settle_snoc steps step w :
  settle F (steps ++ [step]) w = (settle F steps ;; act F step) w.
Proof. unfold settle. by rewrite foldl_app. Qed.

Lemma chain_snoc steps step w w1 w2 :
  chain F steps w w1 → f_act F step w1 = (inr tt, w2) →
  chain F (steps ++ [step]) w w2.
Proof.
  induction 1 as [w|s rest w w' w1 Hs Hrest IH]; intros Hstep; simpl.
  - econstructor; [exact Hstep | constructor].
  - econstructor; [exact Hs | by apply IH].
Qed.

(** C8: for every list of steps chained as fillOutForm chains them and
    every world the chain starts in, either every step resolved, each one
    started in the world its predecessor resolved in, and the steps issued
    are the steps of the list in order; or some step failed, the steps before
    it resolved one after the other, the sequence is rejected with exactly
    the error of that step, and nothing after it was issued. *)
Theorem settle_sequential_fail_fast (steps : list prim) (w : W) :
  (r_res (settle F steps w) = inr tt ∧
   r_log (settle F steps w) = steps ∧
   chain F steps w (r_world (settle F steps w))) ∨
  (∃ resolved failing rest e w1,
      steps = resolved ++ failing :: rest ∧
      chain F resolved w w1 ∧
      f_act F failing w1 = (inl e, r_world (settle F steps w)) ∧
      r_res (settle F steps w) = inl e ∧
      r_log (settle F steps w) = resolved ++ [failing]).
Proof.
  induction steps as [|step steps IH] using rev_ind.
  - left. repeat split. constructor.
  - rewrite settle_snoc. unfold bind.
    destruct IH as [(Hres & Hlog & Hchain) |
                    (resolved & failing & rest & e & w1 &
                     Hsteps & Hchain & Hfail & Hres & Hlog)].
    + rewrite Hres. cbn. unfold act.
      destruct (f_act F step (r_world (settle F steps w)))
        as [[e|[]] w'] eqn:Hact; cbn.
      * right. exists steps, step, [], e, (r_world (settle F steps w)).
        rewrite Hlog. by repeat split.
      * left. rewrite Hlog. repeat split.
        exact (chain_snoc _ _ _ _ _ Hchain Hact).
    + rewrite Hres. cbn. right.
      exists resolved, failing, (rest ++ [step]), e, w1.
      split; [by rewrite Hsteps, <- app_assoc|]. by repeat split.
Qed.

Lemma run_list_prefix (steps : list prim) (w : W) :
  r_log (run_list F steps w) `prefix_of` steps.
Proof.
  revert w. induction steps as [|step steps IH]; intros w; simpl.
  - apply prefix_nil.
  - unfold bind, act. destruct (f_act F step w) as [[e|[]] w']; cbn.
    + apply prefix_cons, prefix_nil.
    + apply prefix_cons, IH.
Qed.

Lemma run_list_resolved (steps : list prim) (w : W) :
  r_res (run_list F steps w) = inr tt →
  chain F steps w (r_world (run_list F steps w)) ∧
  r_log (run_list F steps w) = steps.
Proof.
  revert w. induction steps as [|step steps IH]; intros w; simpl.
  - intros _. split; [constructor | done].
  - unfold bind, act. destruct (f_act F step w) as [[e|[]] w'] eqn:Hact; cbn.
    + discriminate.
    + intros Hres. destruct (IH w' Hres) as [Hchain Hlog]. split.
      * econstructor; [exact Hact | exact Hchain].
      * by rewrite Hlog.
Qed.

Lemma bind_assoc {A B C} (c : Cmd W A) (k : A → Cmd W B) (h : B → Cmd W C)
    (w : W) :
  bind (bind c k) h w = bind c (λ a, bind (k a) h) w.
Proof.
  unfold bind. destruct (r_res (c w)) as [e|a]; cbn; [done|].
  destruct (r_res (k a (r_world (c w)))) as [e|b]; cbn; by rewrite ?app_assoc.
Qed.

Lemma bind_ext {A B} (c : Cmd W A) (k k' : A → Cmd W B) (w : W) :
  (∀ a w', k a w' = k' a w') → bind c k w = bind c k' w.
Proof.
  intros Hk. unfold bind. destruct (r_res (c w)); [done|]. by rewrite Hk.
Qed.

Lemma run_list_snoc (steps : list prim) (step : prim) (w : W) :
  run_list F (steps ++ [step]) w = (run_list F steps ;; act F step) w.
Proof.
  revert w. induction steps as [|s steps IH]; intros w; simpl.
  - unfold bind, ret, act. cbn.
    destruct (f_act F step w) as [[e|[]] w']; cbn; by rewrite ?app_nil_r.
  - rewrite bind_assoc. by apply bind_ext.
Qed.

(** Chaining with [.then] from the left settles as running the steps one
    after the other does. *)
Lemma settle_run_list (steps : list prim) (w : W) :
  settle F steps w = run_list F steps w.
Proof.
  revert w. induction steps as [|step steps IH] using rev_ind; intros w.
  - reflexivity.
  - rewrite settle_snoc, run_list_snoc. unfold bind. by rewrite IH.
Qed.

End Sequencer.

(** The sequence of [plain_model] on a client that rejects the port: the
    hostname is set, the port fails, and the error is the client's own. *)
Example settle_stops_at_port :
  settle port_rejected (fo_steps (fillOutForm sample_globals plain_model))
    0%nat
  = {| r_log := [SetValue "input[name=hostname]" (VStr "db.example.com");
                 SetValue "input[name=port]" (VNum 27018)];
       r_res := inl (ClientError "element not interactable");
       r_world := 2%nat |}.
Proof. vm_compute. reflexivity. Qed.

(** ** The polling wait *)

Section Polling.
Context {W : Type}.
Implicit Types (predicate : Cmd W bool) (w : W).

Lemma poll_hit predicate interval k w w1 :
  misses predicate k w w1 → r_res (predicate w1) = inr true →
  ∀ polls elapsed, (k < polls)%nat →
    r_res (poll predicate interval polls elapsed w)
    = inr (elapsed + N.of_nat k * interval)%N ∧
    r_world (poll predicate interval polls elapsed w)
    = r_world (predicate w1).
Proof.
  induction 1 as [w|k w w' Hfalse Hmiss IH]; intros Htrue polls elapsed Hlt;
    (destruct polls as [|polls]; [lia|]); simpl; unfold bind.
  - rewrite Htrue. cbn. split; [f_equal; lia | done].
  - rewrite Hfalse. cbn.
    destruct (IH Htrue polls (elapsed + interval)%N) as [Hres Hworld]; [lia|].
    rewrite Hres, Hworld. split; [f_equal; lia | done].
Qed.

Lemma poll_miss predicate interval polls w w1 :
  misses predicate polls w w1 →
  ∀ elapsed,
    r_res (poll predicate interval polls elapsed w)
    = inl (Timeout (elapsed + N.of_nat polls * interval) false).
Proof.
  induction 1 as [w|k w w' Hfalse Hmiss IH]; intros elapsed; simpl.
  - unfold throw. cbn. do 2 f_equal. lia.
  - unfold bind. rewrite Hfalse. cbn. rewrite IH. do 2 f_equal. lia.
Qed.

Lemma poll_resolved predicate interval polls :
  ∀ elapsed w t,
    r_res (poll predicate interval polls elapsed w) = inr t →
    ∃ k w1, misses predicate k w w1 ∧ r_res (predicate w1) = inr true ∧
            (k < polls)%nat ∧ t = (elapsed + N.of_nat k * interval)%N.
Proof.
  induction polls as [|polls IH]; intros elapsed w t; simpl.
  - discriminate.
  - unfold bind. destruct (r_res (predicate w)) as [e|[|]] eqn:Hp; cbn.
    + discriminate.
    + intros [= <-]. exists 0%nat, w. repeat split; [constructor|done|lia|lia].
    + intros Hres. apply IH in Hres as (k & w1 & Hmiss & Htrue & Hlt & ->).
      exists (S k), w1. repeat split; [by constructor|done|lia|lia].
Qed.

Lemma waitUntil_res predicate ms interval w :
  r_res (waitUntil predicate ms interval w)
  = match r_res (waitUntil_timed predicate ms interval w) with
    | inl e => inl e
    | inr _ => inr tt
    end.
Proof.
  unfold waitUntil, bind.
  by destruct (r_res (waitUntil_timed predicate ms interval w)).
Qed.

Lemma waitUntil_world predicate ms interval w :
  r_world (waitUntil predicate ms interval w)
  = r_world (waitUntil_timed predicate ms interval w).
Proof.
  unfold waitUntil, bind.
  by destruct (r_res (waitUntil_timed predicate ms interval w)).
Qed.

(** C9: for every predicate, positive timeout [ms] and positive
    [interval]: if an evaluation made no later than [ms] yields true after
    only false ones, the wait resolves, at the time of that evaluation, which
    is at most [ms]; if every evaluation that fits in [ms] yields false, the
    wait fails with a Timeout that carries an elapsed time beyond [ms] and
    the last result, false; and the wait resolves only when some evaluation
    within [ms] yielded true. *)
Theorem waitUntil_resolves_or_times_out predicate (ms interval : N) w :
  (0 < ms)%N → (0 < interval)%N →
  (∀ k w1,
      misses predicate k w w1 → r_res (predicate w1) = inr true →
      (N.of_nat k * interval ≤ ms)%N →
      r_res (waitUntil_timed predicate ms interval w)
      = inr (N.of_nat k * interval)%N ∧
      r_res (waitUntil predicate ms interval w) = inr tt ∧
      r_world (waitUntil predicate ms interval w) = r_world (predicate w1)) ∧
  (∀ w1,
      misses predicate (S (N.to_nat (ms / interval))) w w1 →
      ∃ elapsed,
        (ms < elapsed)%N ∧
        r_res (waitUntil predicate ms interval w)
        = inl (Timeout elapsed false)) ∧
  (r_res (waitUntil predicate ms interval w) = inr tt →
   ∃ k w1,
     misses predicate k w w1 ∧ r_res (predicate w1) = inr true ∧
     (N.of_nat k * interval ≤ ms)%N).
Proof.
  intros Hms Hinterval. split; [|split].
  - intros k w1 Hmiss Htrue Hk.
    assert (k < S (N.to_nat (ms / interval)))%nat as Hlt.
    { assert (N.of_nat k ≤ ms / interval)%N
        by (apply N.div_le_lower_bound; lia).
      lia. }
    destruct (poll_hit predicate interval k w w1 Hmiss Htrue _ 0%N Hlt)
      as [Hres Hworld].
    rewrite waitUntil_res, waitUntil_world. unfold waitUntil_timed.
    rewrite Hres, Hworld. by rewrite N.add_0_l.
  - intros w1 Hmiss.
    exists (N.of_nat (S (N.to_nat (ms / interval))) * interval)%N. split.
    + pose proof (N.mul_succ_div_gt ms interval). lia.
    + rewrite waitUntil_res. unfold waitUntil_timed.
      rewrite (poll_miss _ _ _ _ _ Hmiss). by rewrite N.add_0_l.
  - rewrite waitUntil_res. unfold waitUntil_timed.
    destruct (r_res (poll _ _ _ _ _)) as [e|t] eqn:Hres; [discriminate|].
    intros _. apply poll_resolved in Hres as (k & w1 & Hmiss & Htrue & Hlt & _).
    exists k, w1. repeat split; [done..|].
    pose proof (N.Div0.mul_div_le ms interval).
    assert (N.of_nat k ≤ ms / interval)%N by lia. nia.
Qed.

End Polling.

Lemma waitUntil_resolves_or_times_out_witness :
  r_res (waitUntil fourth_time 5000 1000 0%nat) = inr tt ∧
  ∃ elapsed,
    (5000 < elapsed)%N ∧
    r_res (waitUntil never_true 5000 1000 0%nat)
    = inl (Timeout elapsed false).
Proof.
  split.
  - destruct (waitUntil_resolves_or_times_out fourth_time 5000 1000 0%nat)
      as (Hhit & _ & _); [reflexivity..|].
    apply (Hhit 3%nat 3%nat).
    + repeat (apply misses_S; [reflexivity|cbn]). apply misses_O.
    + reflexivity.
    + vm_compute. discriminate.
  - destruct (waitUntil_resolves_or_times_out never_true 5000 1000 0%nat)
      as (_ & Hmiss & _); [reflexivity..|].
    apply (Hmiss 6%nat).
    repeat (apply misses_S; [reflexivity|cbn]). apply misses_O.
Defined.

(** ** Window tracking *)

Lemma waitForWindow_predicate_out_of_range {W} (F : Facade W)
    (index : nat) (connectHandle : string) (handles : list string) (w w' : W) :
  f_windowHandles F w = (inr {| value_of := handles |}, w') →
  handles !! index = None →
  r_res (waitForWindow_predicate F index connectHandle w) = inr true.
Proof.
  intros Hhandles Hnone.
  unfold waitForWindow_predicate, bind, windowHandles.
  rewrite Hhandles. cbn. by rewrite Hnone.
Qed.

(** C1 (the code at the failing input): the client has the single window
    [h0], so no handle exists at index 1; the predicate of waitForWindow(1)
    yields true on its first evaluation, the wait resolves at once, and
    windowByIndex(1) is issued for a window that does not exist. *)
Theorem waitForWindow_resolves_without_window :
  f_windowHandles one_window 0%nat = (inr {| value_of := ["h0"] |}, 0%nat) ∧
  ["h0"] !! 1%nat = @None string ∧
  r_res (waitForWindow_predicate one_window 1 "h0" 0%nat) = inr true ∧
  r_res (waitUntil (waitForWindow_predicate one_window 1 "h0") 5000 1000 0%nat)
  = inr tt ∧
  waitForWindow one_window 1 (Some 5000%N) (Some 1000%N) 0%nat
  = {| r_log := [WindowHandle; WindowHandles; WindowByIndex 1];
       r_res := inl (ClientError "no such window");
       r_world := 1%nat |}.
Proof. repeat split. Qed.

(** ** Scenarios *)

Section Scenarios.
Context {W : Type} (F : Facade W).

Lemma sidebar_selector_titled (title : string) :
  sidebar_selector title = ".sidebar .list-group-item " +:+ span_titled title.
Proof. reflexivity. Qed.

Lemma collection_selector_titled (title : string) :
  collection_selector title = "a " +:+ span_titled title.
Proof. reflexivity. Qed.

Lemma sampleCollection_run_list (s : string) (internal : bool)
    (ms : option N) (w : W) :
  sampleCollection F s internal ms w
  = run_list F
      (sampleCollection_steps
         (sidebar_selector (if internal then s +:+ internal_suffix else s))
         (or_default ms 10000)) w.
Proof.
  unfold sampleCollection, sampleCollection_steps, run_list, bind, act, ret.
  generalize (sidebar_selector (if internal then s +:+ internal_suffix else s)).
  intros selector. cbn.
  destruct (f_act F (WaitForExist selector _) w) as [[e|[]] w1]; cbn; [done|].
  destruct (f_act F (Click selector) w1) as [[e|[]] w2]; cbn; [done|].
  destruct (f_act F (WaitForVisible "#statusbar" _ false) w2)
    as [[e|[]] w3]; cbn; [done|].
  by destruct (f_act F (WaitForVisible "#statusbar" _ true) w3)
    as [[e|[]] w4].
Qed.

Lemma selectCollection_run_list (name : string) (w : W) :
  selectCollection F name w
  = run_list F (selectCollection_steps (collection_selector name)) w.
Proof.
  unfold selectCollection, selectCollection_steps, waitForStatusBar, run_list,
    bind, act, ret.
  generalize (collection_selector name). intros selector. cbn.
  destruct (f_act F (WaitForVisible "div#statusbar" _ true) w)
    as [[e|[]] w1]; cbn; [done|].
  destruct (f_act F (WaitForVisible selector None false) w1)
    as [[e|[]] w2]; cbn; [done|].
  destruct (f_act F (Click selector) w2) as [[e|[]] w3]; cbn; [done|].
  by destruct (f_act F (WaitForVisible "div.schema-field-list" None false) w3)
    as [[e|[]] w4].
Qed.

(** C6: for every collection name [s]: sampleCollection(s, true, ms) runs,
    one after the other and stopping at the first failure, the wait for and
    the click on the sidebar item whose title is exactly [s] followed by
    " (internal collection)" (then the two status-bar waits);
    sampleCollection(s, false, ms) does so on the item titled [s];
    selectCollection(s) waits for and clicks the span titled [s]; and the two
    title tests differ. *)
Theorem sampleCollection_title_selector (s : string) (ms : option N) (w : W) :
  sampleCollection F s true ms w
  = run_list F
      (sampleCollection_steps
         (".sidebar .list-group-item "
            +:+ span_titled (s +:+ " (internal collection)"))
         (or_default ms 10000)) w ∧
  sampleCollection F s false ms w
  = run_list F
      (sampleCollection_steps
         (".sidebar .list-group-item " +:+ span_titled s)
         (or_default ms 10000)) w ∧
  selectCollection F s w
  = run_list F (selectCollection_steps ("a " +:+ span_titled s)) w ∧
  span_titled (s +:+ " (internal collection)") ≠ span_titled s.
Proof.
  repeat split.
  - by rewrite sampleCollection_run_list, sidebar_selector_titled.
  - by rewrite sampleCollection_run_list, sidebar_selector_titled.
  - by rewrite selectCollection_run_list, collection_selector_titled.
  - unfold span_titled. intros H.
    apply (inj (String.append "span[title=")) in H.
    apply (inj (String.append dquote)) in H.
    apply append_inj_r in H. by apply append_suffix_neq in H.
Qed.

(** C7: for every collection name: when sampleCollection resolves, the
    wait for the sidebar item succeeded, then the click on it, then the wait
    for the status bar to be visible, then the wait for it to be not visible,
    each started in the world the one before it left, and these four are all
    it issued; and when, after the click, the wait for the status bar to be
    visible fails, sampleCollection fails with that error and the wait for it
    to be not visible is never issued. *)
Theorem sampleCollection_round_trip (s : string) (internal : bool)
    (ms : option N) (w : W) :
  let selector :=
    sidebar_selector (if internal then s +:+ internal_suffix else s) in
  let m := or_default ms 10000 in
  (r_res (sampleCollection F s internal ms w) = inr tt →
   ∃ w1 w2 w3,
     f_act F (WaitForExist selector m) w = (inr tt, w1) ∧
     f_act F (Click selector) w1 = (inr tt, w2) ∧
     f_act F (WaitForVisible "#statusbar" (Some m) false) w2 = (inr tt, w3) ∧
     f_act F (WaitForVisible "#statusbar" (Some m) true) w3
     = (inr tt, r_world (sampleCollection F s internal ms w)) ∧
     r_log (sampleCollection F s internal ms w)
     = [WaitForExist selector m; Click selector;
        WaitForVisible "#statusbar" (Some m) false;
        WaitForVisible "#statusbar" (Some m) true]) ∧
  (∀ w1 w2 w3 e,
     f_act F (WaitForExist selector m) w = (inr tt, w1) →
     f_act F (Click selector) w1 = (inr tt, w2) →
     f_act F (WaitForVisible "#statusbar" (Some m) false) w2 = (inl e, w3) →
     r_res (sampleCollection F s internal ms w) = inl e ∧
     r_log (sampleCollection F s internal ms w)
     = [WaitForExist selector m; Click selector;
        WaitForVisible "#statusbar" (Some m) false]).
Proof.
  intros selector m. rewrite sampleCollection_run_list.
  fold selector m. unfold sampleCollection_steps. split.
  - intros Hres. apply run_list_resolved in Hres as [Hchain Hlog].
    inversion Hchain as [|? ? ? w1 ? H1 Hc1]; subst.
    inversion Hc1 as [|? ? ? w2 ? H2 Hc2]; subst.
    inversion Hc2 as [|? ? ? w3 ? H3 Hc3]; subst.
    inversion Hc3 as [|? ? ? w4 ? H4 Hc4]; subst.
    inversion Hc4; subst. by exists w1, w2, w3.
  - intros w1 w2 w3 e H1 H2 H3. simpl. unfold bind, act.
    rewrite H1. cbn. rewrite H2. cbn. by rewrite H3.
Qed.

End Scenarios.

Lemma sampleCollection_round_trip_witness :
  (∃ w1 w2 w3 : nat,
     f_act one_window
       (WaitForExist (sidebar_selector "db.coll") 5000) 0%nat = (inr tt, w1) ∧
     f_act one_window (Click (sidebar_selector "db.coll")) w1 = (inr tt, w2) ∧
     f_act one_window (WaitForVisible "#statusbar" (Some 5000%N) false) w2
     = (inr tt, w3) ∧
     f_act one_window (WaitForVisible "#statusbar" (Some 5000%N) true) w3
     = (inr tt, 4%nat)) ∧
  r_res (sampleCollection idle_statusbar "db.coll" false (Some 5000%N) 0%nat)
  = inl (ClientError "element (#statusbar) still not visible").
Proof.
  split.
  - destruct (sampleCollection_round_trip one_window "db.coll" false
                (Some 5000%N) 0%nat) as [Hresolved _].
    destruct (Hresolved eq_refl) as (w1 & w2 & w3 & H1 & H2 & H3 & H4 & _).
    by exists w1, w2, w3.
  - destruct (sampleCollection_round_trip idle_statusbar "db.coll" false
                (Some 5000%N) 0%nat) as [_ Hfails].
    by destruct (Hfails 1%nat 2%nat 3%nat
                   (ClientError "element (#statusbar) still not visible")
                   eq_refl eq_refl eq_refl).
Defined.

(** ** Connecting with defaults *)

Lemma static_step_issued g model (field : string) v :
  field ∈ staticFields → model !! field = Some v → truthy_value v = true →
  SetValue (input_selector field) v ∈ fo_steps (fillOutForm g model).
Proof.
  intros Hstatic Hv Ht. rewrite fillOutForm_steps, elem_of_app. left.
  by apply field_step_elem_of.
Qed.

(** The scenario of section 8 on the [connecting] client: with no overrides
    the two defaults are filled in, connect is clicked, and the command
    resolves by switching to index 0 once the handle there is no longer the
    connect window's. *)
Example gotoSchemaWindow_connecting :
  gotoSchemaWindow connecting node_globals (Some ∅) None (0%nat, None)
  = {| r_log :=
         [WaitForVisible "select[name=authentication]" None false;
          SetValue "input[name=hostname]" (VStr "localhost");
          SetValue "input[name=port]" (VNum 27017);
          Click "button[name=connect]";
          WindowHandle; WindowHandles; WindowHandles; WindowHandles;
          WindowByIndex 0];
       r_res := inr tt;
       r_world := (5%nat, Some 3%nat) |}.
Proof. vm_compute. reflexivity. Qed.

(** ** Launching and stopping the application *)

Section LifecycleProperties.
Variable path_join : list string → string.
Variable existsSync : string → bool.
Variable electronPrebuilt : string.
Variable app_start : Application → error + unit.
Variable app_waitUntilWindowLoaded : Application → N → error + unit.

(** What createApplication does once [assert] is bound to Node's assert. *)
Lemma createApplication_with_assert (g : globals) (proc : process)
    (distDir executable : string) :
  g_assert g = Some node_assert →
  test_with_prebuilt proc = false →
  electronExecutable path_join proc distDir = inr executable →
  createApplication path_join existsSync electronPrebuilt g proc distDir
  = if existsSync executable
    then inr {| app_path := executable; app_args := None;
                app_env := env proc; app_cwd := None |}
    else inl (AssertionError executable_not_found).
Proof.
  intros Hassert Hflag Hexe. unfold createApplication.
  rewrite Hflag, Hexe, Hassert. unfold node_assert.
  by destruct (existsSync executable).
Qed.

(** C2 (the code at the failing input): on linux, with TEST_WITH_PREBUILT
    unset and the global scope of a Node process, createApplication throws a
    ReferenceError for [assert], whether the executable exists or not, and
    startApplication fails with it before any automation call. *)
Theorem createApplication_assert_unbound (distDir : string) :
  let proc := {| env := ∅; platform := "linux" |} in
  createApplication path_join existsSync electronPrebuilt node_globals proc
    distDir
  = inl (ReferenceError "assert") ∧
  startApplication path_join existsSync electronPrebuilt app_start
    app_waitUntilWindowLoaded node_globals proc distDir
  = ([], inl (ReferenceError "assert")).
Proof.
  intros proc.
  assert (createApplication path_join existsSync electronPrebuilt
            node_globals proc distDir = inl (ReferenceError "assert"))
    as Hcreate by reflexivity.
  split; [exact Hcreate|]. unfold startApplication. by rewrite Hcreate.
Qed.

End LifecycleProperties.

(** C10: for every application handle: stop is called exactly when the
    handle is an application whose isRunning() is true, and then the deferred
    of stop() is returned; for a null or undefined handle and for an
    application that is not running, stop is not called, nothing is thrown,
    undefined is returned, and the application is left as it was. *)
Theorem stopApplication_guard (App : Type) (isRunning : App → bool)
    (stop : App → (error + unit) * App) (app : option App) :
  (CallStop ∈ s_calls App (stopApplication App isRunning stop app) ↔
   ∃ a, app = Some a ∧ isRunning a = true) ∧
  (∀ a, app = Some a → isRunning a = true →
     s_return App (stopApplication App isRunning stop app)
     = inr (Some (stop a).1) ∧
     s_app App (stopApplication App isRunning stop app) = Some (stop a).2) ∧
  (app = None ∨ (∃ a, app = Some a ∧ isRunning a = false) →
     (CallStop ∉ s_calls App (stopApplication App isRunning stop app)) ∧
     s_return App (stopApplication App isRunning stop app) = inr None ∧
     s_app App (stopApplication App isRunning stop app) = app).
Proof.
  unfold stopApplication. destruct app as [a|]; cbn.
  - destruct (isRunning a) eqn:Hrun.
    + destruct (stop a) as [deferred a'] eqn:Hstop; cbn. split; [|split].
      * split; [intros _; by exists a | intros _; by_evaluation].
      * intros a0 [= <-] _. by rewrite Hstop.
      * intros [H | (a0 & [= <-] & H)]; congruence.
    + cbn. split; [|split].
      * split; [|intros (a0 & [= <-] & H); congruence].
        intros H. exfalso. revert H. by_evaluation.
      * intros a0 [= <-] H. congruence.
      * intros _. repeat split. by_evaluation.
  - split; [|split].
    + split; [|by intros (a & H & _)].
      intros H. exfalso. revert H. by_evaluation.
    + by intros a H.
    + intros _. repeat split. by_evaluation.
Qed.

Lemma stopApplication_guard_witness :
  s_return bool (stopApplication bool id (λ _, (inr tt, false)) (Some false))
  = inr None ∧
  s_return bool (stopApplication bool id (λ _, (inr tt, false)) None)
  = inr None ∧
  s_return bool (stopApplication bool id (λ _, (inr tt, false)) (Some true))
  = inr (Some (inr tt)).
Proof.
  split; [|split].
  - destruct (stopApplication_guard bool id (λ _, (inr tt, false)) (Some false))
      as (_ & _ & Hidle).
    destruct Hidle as (_ & Hret & _); [right; by exists false | exact Hret].
  - destruct (stopApplication_guard bool id (λ _, (inr tt, false)) None)
      as (_ & _ & Hidle).
    destruct Hidle as (_ & Hret & _); [by left | exact Hret].
  - destruct (stopApplication_guard bool id (λ _, (inr tt, false)) (Some true))
      as (_ & Hrunning & _).
    by destruct (Hrunning true eq_refl eq_refl).
Defined.

(** * Further properties of the code *)

(** ** fillOutForm *)

Lemma enabled_true (x : option value) :
  enabled x = true ↔
  ∃ v, x = Some v ∧ truthy_value v = true ∧ v ≠ VStr "NONE".
Proof.
  unfold enabled, strict_neq. split.
  - destruct x as [v|]; [|done]. rewrite andb_true_iff, negb_true_iff.
    intros [Ht Hne]. exists v. repeat split; [done|].
    apply bool_decide_eq_false in Hne. congruence.
  - intros (v & -> & Ht & Hne). rewrite Ht. simpl.
    apply negb_true_iff, bool_decide_eq_false. congruence.
Qed.

Lemma fillOutForm_thrown g model :
  fo_thrown (fillOutForm g model)
  = if enabled (model !! "authentication")
    then match g_Connection g with
         | Some _ => None
         | None => Some (ReferenceError "Connection")
         end
    else None.
Proof.
  unfold fillOutForm, enabled.
  destruct (model !! "authentication") as [auth|]; [|done].
  destruct (truthy_value auth && _); [|done].
  by destruct (g_Connection g).
Qed.

Lemma auth_steps_on g model :
  enabled (model !! "authentication") = true →
  ∃ auth,
    model !! "authentication" = Some auth ∧
    auth_steps g model
    = SelectByValue "select[name=authentication]" auth ::
      match g_Connection g with
      | Some getFieldNames => omap (field_step model) (getFieldNames auth)
      | None => []
      end.
Proof.
  unfold enabled, auth_steps.
  destruct (model !! "authentication") as [auth|]; [|done].
  intros ->. by exists auth.
Qed.

Lemma auth_steps_off g model :
  enabled (model !! "authentication") = false → auth_steps g model = [].
Proof.
  unfold enabled, auth_steps.
  destruct (model !! "authentication") as [auth|]; [|done]. by intros ->.
Qed.

Lemma ssl_steps_on model :
  enabled (model !! "ssl") = true →
  ∃ ssl,
    model !! "ssl" = Some ssl ∧
    ssl_steps model
    = SelectByValue "select[name=ssl]" ssl :: omap (field_step model) sslFields.
Proof.
  unfold enabled, ssl_steps. destruct (model !! "ssl") as [ssl|]; [|done].
  intros ->. by exists ssl.
Qed.

Lemma ssl_steps_off model :
  enabled (model !! "ssl") = false → ssl_steps model = [].
Proof.
  unfold enabled, ssl_steps. destruct (model !! "ssl") as [ssl|]; [|done].
  by intros ->.
Qed.

Lemma static_step_not_ssl_op model (p : prim) :
  p ∈ omap (field_step model) staticFields → ¬ is_ssl_op p.
Proof.
  intros Hp. apply elem_of_field_steps in Hp as (f & v & Hf & _ & _ & ->).
  intros [[v' Heq] | (field & v' & Hin & Heq)]; [done|].
  apply SetValue_input_inj in Heq as ->. by apply (static_ssl_disjoint field).
Qed.

(** X1: fillOutForm throws exactly when authentication is switched on
    (truthy and not "NONE") while [Connection] is unbound; what it throws is
    the ReferenceError for [Connection]; and the callbacks registered by then
    are the static fields and the authentication select only, so no SSL
    operation is among them whatever the model says about ssl. *)
Theorem fillOutForm_throws_iff g model :
  (fo_thrown (fillOutForm g model) ≠ None ↔
   enabled (model !! "authentication") = true ∧ g_Connection g = None) ∧
  (∀ e, fo_thrown (fillOutForm g model) = Some e →
     e = ReferenceError "Connection" ∧
     (∃ auth,
        model !! "authentication" = Some auth ∧
        fo_steps (fillOutForm g model)
        = omap (field_step model) staticFields
          ++ [SelectByValue "select[name=authentication]" auth]) ∧
     (∀ p, p ∈ fo_steps (fillOutForm g model) → ¬ is_ssl_op p)).
Proof.
  split.
  - rewrite fillOutForm_thrown.
    destruct (enabled (model !! "authentication"));
      destruct (g_Connection g); split; try done; by intros [? ?].
  - intros e He. pose proof (fillOutForm_steps g model) as Hsteps.
    rewrite He in Hsteps. rewrite fillOutForm_thrown in He.
    destruct (enabled (model !! "authentication")) eqn:Hon; [|done].
    destruct (g_Connection g) eqn:Hg; [done|]. injection He as <-.
    destruct (auth_steps_on g model Hon) as (auth & Hauth & Hshape).
    rewrite Hg in Hshape. rewrite Hshape, app_nil_r in Hsteps.
    split; [done|]. split; [by exists auth|].
    intros p. rewrite Hsteps, elem_of_app, list_elem_of_singleton.
    intros [Hp | ->]; [by eapply static_step_not_ssl_op|].
    intros [[v' Heq] | (field & v' & _ & Heq)]; done.
Qed.

(** X2: with authentication switched on and the lookup bound, fillOutForm
    returns its sequence, and the sequence is: the static fields that hold a
    truthy value, in the order hostname, port, name; the select of the
    authentication kind; one setValue per looked-up field that holds a truthy
    value, in the order of the lookup; then the SSL steps. *)
Theorem fillOutForm_auth_enabled g model auth getFieldNames :
  model !! "authentication" = Some auth → truthy_value auth = true →
  auth ≠ VStr "NONE" → g_Connection g = Some getFieldNames →
  fo_thrown (fillOutForm g model) = None ∧
  fo_steps (fillOutForm g model)
  = omap (field_step model) staticFields
    ++ SelectByValue "select[name=authentication]" auth
       :: omap (field_step model) (getFieldNames auth)
    ++ ssl_steps model.
Proof.
  intros Hauth Ht Hne Hg.
  assert (enabled (model !! "authentication") = true) as Hon
    by (apply enabled_true; by exists auth).
  pose proof (fillOutForm_thrown g model) as Hthrown.
  rewrite Hon, Hg in Hthrown. split; [done|].
  rewrite fillOutForm_steps, Hthrown.
  destruct (auth_steps_on g model Hon) as (auth' & Hauth' & ->).
  rewrite Hg. by simplify_eq.
Qed.

Lemma fillOutForm_auth_enabled_witness :
  fo_thrown (fillOutForm sample_globals secured_model) = None ∧
  fo_steps (fillOutForm sample_globals secured_model)
  = [SetValue "input[name=hostname]" (VStr "db.example.com");
     SelectByValue "select[name=authentication]" (VStr "MONGODB");
     SetValue "input[name=mongodb_username]" (VStr "arlo");
     SetValue "input[name=mongodb_password]" (VStr "s3cret");
     SelectByValue "select[name=ssl]" (VStr "ALL");
     SetValue "input[name=ssl_ca]" (VStr "ca.pem");
     SetValue "input[name=ssl_private_key]" (VStr "key.pem")].
Proof.
  destruct (fillOutForm_auth_enabled sample_globals secured_model
              (VStr "MONGODB") sample_getFieldNames)
    as [Hthrown Hsteps]; [reflexivity | reflexivity | discriminate
                         | reflexivity |].
  split; [exact Hthrown|]. rewrite Hsteps. vm_compute. reflexivity.
Defined.

(** X3: with ssl switched on and no throw, the sequence ends with the
    select of the ssl kind followed by one setValue per SSL field that holds
    a truthy value, in the order ssl_ca, ssl_certificate, ssl_private_key,
    ssl_private_key_password; nothing before it selects an ssl kind. *)
Theorem fillOutForm_ssl_enabled g model ssl :
  model !! "ssl" = Some ssl → truthy_value ssl = true → ssl ≠ VStr "NONE" →
  fo_thrown (fillOutForm g model) = None →
  ∃ before,
    fo_steps (fillOutForm g model)
    = before ++ SelectByValue "select[name=ssl]" ssl
             :: omap (field_step model) sslFields ∧
    ∀ v, SelectByValue "select[name=ssl]" v ∉ before.
Proof.
  intros Hssl Ht Hne Hthrown.
  assert (enabled (model !! "ssl") = true) as Hon
    by (apply enabled_true; by exists ssl).
  destruct (ssl_steps_on model Hon) as (ssl' & Hssl' & Hshape).
  simplify_eq.
  exists (omap (field_step model) staticFields ++ auth_steps g model). split.
  - rewrite fillOutForm_steps, Hthrown, Hshape. by rewrite app_assoc.
  - intros v. rewrite elem_of_app. intros [Hp | Hp].
    + by apply elem_of_field_steps in Hp as (f & v' & _ & _ & _ & ?).
    + by apply elem_of_auth_steps in Hp as [[v' ?] | (? & ? & ? & ? & _ & _ & ?)].
Qed.

Lemma fillOutForm_ssl_enabled_witness :
  ∃ before,
    fo_steps (fillOutForm sample_globals secured_model)
    = before ++ SelectByValue "select[name=ssl]" (VStr "ALL")
             :: omap (field_step secured_model) sslFields ∧
    ∀ v, SelectByValue "select[name=ssl]" v ∉ before.
Proof.
  apply (fillOutForm_ssl_enabled sample_globals secured_model (VStr "ALL"));
    [reflexivity | reflexivity | discriminate | reflexivity].
Defined.

Lemma field_step_falsy model (field : string) :
  truthy (model !! field) = false → field_step model field = None.
Proof.
  unfold truthy, field_step. destruct (model !! field) as [v|]; [|done].
  by intros ->.
Qed.

(** X4: when none of hostname, port and name holds a truthy value and
    neither authentication nor ssl is switched on, fillOutForm registers no
    step and returns; the command then resolves without issuing a primitive
    and leaves the client as it found it, whatever else the model holds. *)
Theorem fillOutForm_nothing_to_fill {W} (F : Facade W) g model :
  (∀ field, field ∈ staticFields → truthy (model !! field) = false) →
  enabled (model !! "authentication") = false →
  enabled (model !! "ssl") = false →
  fillOutForm g model = {| fo_steps := []; fo_thrown := None |} ∧
  ∀ w, fillOutFormCmd F g model w
       = {| r_log := []; r_res := inr tt; r_world := w |}.
Proof.
  intros Hstatic Hauth Hssl.
  assert (fo_thrown (fillOutForm g model) = None) as Hthrown
    by (by rewrite fillOutForm_thrown, Hauth).
  assert (fo_steps (fillOutForm g model) = []) as Hsteps.
  { rewrite fillOutForm_steps, Hthrown, auth_steps_off, ssl_steps_off by done.
    unfold staticFields. cbn [omap list_omap].
    rewrite !field_step_falsy; [done|apply Hstatic; by_evaluation..]. }
  split.
  - destruct (fillOutForm g model). simpl in *. by subst.
  - intros w. unfold fillOutFormCmd. by rewrite Hthrown, Hsteps.
Qed.

Lemma fillOutForm_nothing_to_fill_witness :
  fillOutForm node_globals blank_model
  = {| fo_steps := []; fo_thrown := None |} ∧
  ∀ w, fillOutFormCmd no_session node_globals blank_model w
       = {| r_log := []; r_res := inr tt; r_world := w |}.
Proof.
  apply (fillOutForm_nothing_to_fill no_session node_globals blank_model).
  - unfold staticFields. intros field.
    rewrite !elem_of_cons, elem_of_nil. by intros [->|[->|[->|[]]]].
  - reflexivity.
  - reflexivity.
Defined.

Lemma elem_of_auth_steps_model g model (p : prim) :
  p ∈ auth_steps g model →
  (∃ auth, model !! "authentication" = Some auth ∧
           p = SelectByValue "select[name=authentication]" auth) ∨
  (∃ f v, model !! f = Some v ∧ truthy_value v = true ∧
          p = SetValue (input_selector f) v).
Proof.
  unfold auth_steps. destruct (model !! "authentication") as [auth|];
    [|by rewrite elem_of_nil].
  destruct (truthy_value auth && _); [|by rewrite elem_of_nil].
  rewrite elem_of_cons. intros [-> | Hin]; [left; by exists auth|].
  destruct (g_Connection g) as [getFieldNames|];
    [|by rewrite elem_of_nil in Hin].
  apply elem_of_field_steps in Hin as (f & v & _ & Hv & Ht & ->).
  right. by exists f, v.
Qed.

Lemma elem_of_ssl_steps_model model (p : prim) :
  p ∈ ssl_steps model →
  (∃ ssl, model !! "ssl" = Some ssl ∧
          p = SelectByValue "select[name=ssl]" ssl) ∨
  (∃ f v, model !! f = Some v ∧ truthy_value v = true ∧
          p = SetValue (input_selector f) v).
Proof.
  unfold ssl_steps. destruct (model !! "ssl") as [ssl|];
    [|by rewrite elem_of_nil].
  destruct (truthy_value ssl && _); [|by rewrite elem_of_nil].
  rewrite elem_of_cons. intros [-> | Hin]; [left; by exists ssl|].
  apply elem_of_field_steps in Hin as (f & v & _ & Hv & Ht & ->).
  right. by exists f, v.
Qed.

Lemma fillOutForm_step_shape g model (p : prim) :
  p ∈ fo_steps (fillOutForm g model) →
  (∃ f v, model !! f = Some v ∧ truthy_value v = true ∧
          p = SetValue (input_selector f) v) ∨
  (∃ auth, model !! "authentication" = Some auth ∧
           p = SelectByValue "select[name=authentication]" auth) ∨
  (∃ ssl, model !! "ssl" = Some ssl ∧
          p = SelectByValue "select[name=ssl]" ssl).
Proof.
  rewrite fillOutForm_steps, !elem_of_app. intros [Hp | [Hp | Hp]].
  - apply elem_of_field_steps in Hp as (f & v & _ & Hv & Ht & ->).
    left. by exists f, v.
  - apply elem_of_auth_steps_model in Hp as [Hp | Hp]; auto.
  - destruct (fo_thrown _); [by rewrite elem_of_nil in Hp|].
    apply elem_of_ssl_steps_model in Hp as [Hp | Hp]; auto.
Qed.

(** X5: every step of the sequence is a setValue or a selectByValue that
    carries a value the model holds: a setValue targets the input named
    after a field whose value in the model is that value, and is truthy; a
    selectByValue targets the authentication select with the model's
    authentication or the ssl select with the model's ssl.  The sequence
    holds no click, wait or window operation. *)
Theorem fillOutForm_values_from_model g model (p : prim) :
  p ∈ fo_steps (fillOutForm g model) →
  match p with
  | SetValue selector v =>
      ∃ field, selector = input_selector field ∧
               model !! field = Some v ∧ truthy_value v = true
  | SelectByValue selector v =>
      (selector = "select[name=authentication]" ∧
       model !! "authentication" = Some v) ∨
      (selector = "select[name=ssl]" ∧ model !! "ssl" = Some v)
  | _ => False
  end.
Proof.
  intros Hp.
  apply fillOutForm_step_shape in Hp
    as [(f & v & Hv & Ht & ->) | [(auth & Ha & ->) | (ssl & Hs & ->)]].
  - by exists f.
  - by left.
  - by right.
Qed.

Lemma fillOutForm_values_from_model_witness :
  ∃ field, "input[name=mongodb_username]" = input_selector field ∧
           secured_model !! field = Some (VStr "arlo") ∧
           truthy_value (VStr "arlo") = true.
Proof.
  apply (fillOutForm_values_from_model sample_globals secured_model
           (SetValue "input[name=mongodb_username]" (VStr "arlo"))).
  by_evaluation.
Defined.

Lemma each_set_field_insert model (fields : list string) sequence k v :
  k ∉ fields →
  each_set_field (<[k:=v]> model) fields sequence
  = each_set_field model fields sequence.
Proof.
  unfold each_set_field. revert sequence.
  induction fields as [|f fields IH]; intros sequence; [done|].
  rewrite not_elem_of_cons. intros [Hne Hnotin]. simpl.
  rewrite IH by done. f_equal. unfold set_field.
  by rewrite lookup_insert_ne.
Qed.

Lemma ssl_block_insert model sequence k v :
  k ≠ "ssl" → k ∉ sslFields →
  ssl_block (<[k:=v]> model) sequence = ssl_block model sequence.
Proof.
  intros Hne Hnotin. unfold ssl_block. rewrite lookup_insert_ne by done.
  destruct (model !! "ssl") as [ssl|]; [|done].
  destruct (truthy_value ssl && _); [|done].
  by apply each_set_field_insert.
Qed.

(** X6: a key the form does not know is ignored: adding to the model a key
    that is not a static field, not authentication, not ssl, not an SSL field
    and not named by the lookup changes neither the sequence nor whether
    fillOutForm throws. *)
Theorem fillOutForm_ignores_unknown_key g model (k : string) (v : value) :
  k ∉ staticFields → k ∉ sslFields → k ≠ "authentication" → k ≠ "ssl" →
  (∀ getFieldNames auth,
      g_Connection g = Some getFieldNames → k ∉ getFieldNames auth) →
  fillOutForm g (<[k:=v]> model) = fillOutForm g model.
Proof.
  intros Hstatic Hsslf Hauth Hssl Hlookup. unfold fillOutForm.
  rewrite lookup_insert_ne by done.
  rewrite !ssl_block_insert, !each_set_field_insert by done.
  destruct (model !! "authentication") as [auth|]; [|done].
  destruct (truthy_value auth && _); [|done].
  destruct (g_Connection g) as [getFieldNames|] eqn:Hg; [|done].
  rewrite ssl_block_insert by done.
  rewrite each_set_field_insert; [done|]. by apply Hlookup.
Qed.

Lemma sample_lookup_favourite getFieldNames auth :
  g_Connection sample_globals = Some getFieldNames →
  "favourite" ∉ getFieldNames auth.
Proof.
  intros [= <-]. unfold sample_getFieldNames.
  repeat case_decide; by_evaluation.
Qed.

Lemma fillOutForm_ignores_unknown_key_witness :
  fillOutForm sample_globals (<["favourite" := VBool true]> secured_model)
  = fillOutForm sample_globals secured_model.
Proof.
  apply fillOutForm_ignores_unknown_key;
    [by_evaluation | by_evaluation | discriminate | discriminate
    | apply sample_lookup_favourite].
Defined.

(** ** Window tracking, continued *)

Section WindowProperties.
Context {W : Type} (F : Facade W).

(** X7: when the handle of the current window cannot be read,
    waitForWindow fails with the client's own error after that one query: it
    never asks for the window list and never switches window; waitForHelpDialog
    fails the same way and does not wait for the help title. *)
Theorem waitForWindow_handle_query_fails (index : nat) (ms interval : option N)
    (w w' : W) (e : error) :
  f_windowHandle F w = (inl e, w') →
  waitForWindow F index ms interval w
  = {| r_log := [WindowHandle]; r_res := inl e; r_world := w' |} ∧
  waitForHelpDialog F ms interval w
  = {| r_log := [WindowHandle]; r_res := inl e; r_world := w' |}.
Proof.
  intros Hquery.
  assert (∀ i, waitForWindow F i ms interval w
               = {| r_log := [WindowHandle]; r_res := inl e; r_world := w' |})
    as Hfails.
  { intros i. unfold waitForWindow, bind, windowHandle. by rewrite Hquery. }
  split; [apply Hfails|]. unfold waitForHelpDialog, bind. by rewrite Hfails.
Qed.

End WindowProperties.

Lemma waitForWindow_handle_query_fails_witness :
  waitForWindow no_session 0 None None 0%nat
  = {| r_log := [WindowHandle]; r_res := inl (ClientError "no such session");
       r_world := 0%nat |} ∧
  waitForHelpDialog no_session None None 0%nat
  = {| r_log := [WindowHandle]; r_res := inl (ClientError "no such session");
       r_world := 0%nat |}.
Proof.
  apply (waitForWindow_handle_query_fails no_session 0 None None 0%nat 0%nat).
  reflexivity.
Defined.

(** ** Commands behind the status bar *)

Ltac split_acts :=
  repeat match goal with
         | |- context [f_act ?F ?p ?w] =>
             destruct (f_act F p w) as [[?|[]] ?] eqn:?; cbn
         end.

Section GatedCommands.
Context {W : Type} (F : Facade W).

(** X8: selectCollection, viewSampleDocuments, refineSample and resetSample
    do nothing before the status bar has gone: when the wait for the status
    bar to be not visible fails, each of them fails with that error, has
    issued that wait only, and leaves the client as the wait left it. *)
Theorem statusbar_gate (name : string) (query : value) (w w' : W) (e : error) :
  f_act F (WaitForVisible "div#statusbar" (Some 15000%N) true) w = (inl e, w') →
  let rejected :=
    {| r_log := [WaitForVisible "div#statusbar" (Some 15000%N) true];
       r_res := @inl error unit e; r_world := w' |} in
  selectCollection F name w = rejected ∧
  viewSampleDocuments F w = rejected ∧
  refineSample F query w = rejected ∧
  resetSample F w = rejected.
Proof.
  intros Hwait rejected.
  unfold selectCollection, viewSampleDocuments, refineSample, resetSample,
    waitForStatusBar, bind, act.
  by rewrite !Hwait.
Qed.

(** X9: when viewSampleDocuments, refineSample, resetSample or
    filterHelpTopics resolves, its primitives succeeded one after the other,
    each in the world the one before it left, and they are all it issued:
    the status-bar wait, the click on #view_sample and the wait for the
    documents; the status-bar wait, the setValue of the query on
    input#refine_input and the click on apply; the status-bar wait and the
    click on reset; the wait for the filter input and the setValue of the
    topic on it. *)
Theorem sample_commands_resolved (query topic : value) (w : W) :
  let statusbar := WaitForVisible "div#statusbar" (Some 15000%N) true in
  (r_res (viewSampleDocuments F w) = inr tt →
   let steps := [statusbar; Click "#view_sample";
                 WaitForVisible "div#sample_documents" None false] in
   chain F steps w (r_world (viewSampleDocuments F w)) ∧
   r_log (viewSampleDocuments F w) = steps) ∧
  (r_res (refineSample F query w) = inr tt →
   let steps := [statusbar; SetValue "input#refine_input" query;
                 Click "button#apply_button"] in
   chain F steps w (r_world (refineSample F query w)) ∧
   r_log (refineSample F query w) = steps) ∧
  (r_res (resetSample F w) = inr tt →
   let steps := [statusbar; Click "button#reset_button"] in
   chain F steps w (r_world (resetSample F w)) ∧
   r_log (resetSample F w) = steps) ∧
  (r_res (filterHelpTopics F topic w) = inr tt →
   let steps := [WaitForVisible "input[placeholder=filter]" None false;
                 SetValue "input[placeholder=filter]" topic] in
   chain F steps w (r_world (filterHelpTopics F topic w)) ∧
   r_log (filterHelpTopics F topic w) = steps).
Proof.
  intros statusbar. subst statusbar.
  unfold viewSampleDocuments, refineSample, resetSample, filterHelpTopics,
    waitForStatusBar, bind, act.
  repeat split; revert H; split_acts; try discriminate; intros _;
    try reflexivity; repeat (econstructor; [eassumption|]); constructor.
Qed.

End GatedCommands.

Lemma statusbar_gate_witness :
  refineSample busy_statusbar (VStr "{}") 0%nat
  = {| r_log := [WaitForVisible "div#statusbar" (Some 15000%N) true];
       r_res := inl (ClientError "element (div#statusbar) still visible");
       r_world := 1%nat |}.
Proof.
  destruct (statusbar_gate busy_statusbar "db.coll" (VStr "{}") 0%nat 1%nat
              (ClientError "element (div#statusbar) still visible") eq_refl)
    as (_ & _ & Hrefine & _).
  exact Hrefine.
Defined.

Lemma sample_commands_resolved_witness :
  r_log (refineSample one_window (VStr "{}") 0%nat)
  = [WaitForVisible "div#statusbar" (Some 15000%N) true;
     SetValue "input#refine_input" (VStr "{}"); Click "button#apply_button"].
Proof.
  destruct (sample_commands_resolved one_window (VStr "{}") (VStr "index")
              0%nat) as (_ & Hrefine & _).
  by destruct (Hrefine eq_refl).
Defined.

(** ** Selectors *)

(** X11: the three selector builders are injective: two fields share an
    input selector, and two collection names a sidebar or title selector,
    only when they are the same string. *)
Theorem selectors_injective (a b : string) :
  (input_selector a = input_selector b → a = b) ∧
  (collection_selector a = collection_selector b → a = b) ∧
  (sidebar_selector a = sidebar_selector b → a = b).
Proof.
  split; [apply input_selector_inj|]. split; [|apply sidebar_selector_inj].
  unfold collection_selector. intros H.
  apply (inj (String.append "a span[title=")) in H.
  apply (inj (String.append dquote)) in H.
  by apply append_inj_r in H.
Qed.

(** ** Connecting, continued *)

Lemma settle_log_steps {W} (F : Facade W) (steps : list prim) (w : W)
    (p : prim) :
  p ∈ r_log (settle F steps w) → p ∈ steps.
Proof.
  rewrite settle_run_list. intros Hp.
  destruct (run_list_prefix F steps w) as [rest ->].
  rewrite elem_of_app. by left.
Qed.

Lemma bind_log_elem {W A B} (c : Cmd W A) (k : A → Cmd W B) (w : W)
    (p : prim) :
  p ∈ r_log (bind c k w) →
  p ∈ r_log (c w) ∨
  ∃ a, r_res (c w) = inr a ∧ p ∈ r_log (k a (r_world (c w))).
Proof.
  unfold bind. destruct (r_res (c w)) as [e|a]; cbn; [by left|].
  rewrite elem_of_app. intros [Hp | Hp]; [by left|]. right. by exists a.
Qed.

Lemma act_log {W} (F : Facade W) (p : prim) (w : W) :
  r_log (act F p w) = [p].
Proof. unfold act. by destruct (f_act F p w). Qed.

Lemma act_resolved {W} (F : Facade W) (p : prim) (w : W) (a : unit) :
  r_res (act F p w) = inr a → f_act F p w = (inr tt, r_world (act F p w)).
Proof.
  unfold act. destruct (f_act F p w) as [[e|[]] w']; cbn; [discriminate|done].
Qed.

(** X12: gotoSchemaWindow clicks connect only after the form was seen and
    filled in: if the click on connect is among the primitives it issued,
    then the wait for the authentication select succeeded, fillOutForm did
    not throw, and every step of its sequence resolved. *)
Theorem gotoSchemaWindow_click_after_fill {W} (F : Facade W) (g : globals)
    (connection : option (gmap string value)) (ms : option N) (w : W) :
  Click "button[name=connect]"
    ∈ r_log (gotoSchemaWindow F g connection ms w) →
  let filled := defaults (default ∅ connection) connection_defaults in
  ∃ w1,
    f_act F (WaitForVisible "select[name=authentication]" None false) w
    = (inr tt, w1) ∧
    fo_thrown (fillOutForm g filled) = None ∧
    r_res (settle F (fo_steps (fillOutForm g filled)) w1) = inr tt.
Proof.
  intros Hclick filled. unfold gotoSchemaWindow in Hclick. fold filled in Hclick.
  apply bind_log_elem in Hclick as [Hin | (a & Hwait & Hin)].
  { rewrite act_log, list_elem_of_singleton in Hin. discriminate. }
  apply act_resolved in Hwait. eexists. split; [exact Hwait|].
  apply bind_log_elem in Hin as [Hin | (a' & Hfill & _)];
    unfold fillOutFormCmd in *;
    destruct (fo_thrown (fillOutForm g filled)) as [e|] eqn:Hthrown;
    cbn in *.
  - apply settle_log_steps, fillOutForm_step_shape in Hin.
    by destruct Hin as [(? & ? & _ & _ & ?) | [(? & _ & ?) | (? & _ & ?)]].
  - apply settle_log_steps, fillOutForm_step_shape in Hin.
    by destruct Hin as [(? & ? & _ & _ & ?) | [(? & _ & ?) | (? & _ & ?)]].
  - discriminate.
  - split; [done|]. by destruct a'.
Qed.

Lemma gotoSchemaWindow_click_after_fill_witness :
  ∃ w1,
    f_act connecting (WaitForVisible "select[name=authentication]" None false)
      (0%nat, None)
    = (inr tt, w1) ∧
    fo_thrown (fillOutForm node_globals
                 (defaults (default ∅ (Some ∅)) connection_defaults)) = None ∧
    r_res (settle connecting
             (fo_steps (fillOutForm node_globals
                          (defaults (default ∅ (Some ∅)) connection_defaults)))
             w1) = inr tt.
Proof.
  apply (gotoSchemaWindow_click_after_fill connecting node_globals (Some ∅)
           None (0%nat, None)).
  by_evaluation.
Defined.

(** ** Polling for a window *)

Lemma bind_log {W A B} (c : Cmd W A) (k : A → Cmd W B) (w : W) :
  r_log (bind c k w)
  = r_log (c w) ++ match r_res (c w) with
                   | inr a => r_log (k a (r_world (c w)))
                   | inl _ => []
                   end.
Proof.
  unfold bind. destruct (r_res (c w)); cbn; by rewrite ?app_nil_r.
Qed.

Lemma waitForWindow_predicate_log {W} (F : Facade W) (index : nat)
    (connectHandle : string) (w : W) :
  r_log (waitForWindow_predicate F index connectHandle w) = [WindowHandles].
Proof.
  unfold waitForWindow_predicate. rewrite bind_log. unfold windowHandles.
  by destruct (f_windowHandles F w) as [[e|r] w'].
Qed.

Lemma poll_window_log {W} (F : Facade W) (index : nat) (connectHandle : string)
    (interval : N) (polls : nat) :
  ∀ elapsed w,
    ∃ k, (k ≤ polls)%nat ∧
         r_log (poll (waitForWindow_predicate F index connectHandle) interval
                  polls elapsed w)
         = replicate k WindowHandles.
Proof.
  induction polls as [|polls IH]; intros elapsed w.
  - by exists 0%nat.
  - cbn [poll]. rewrite bind_log, waitForWindow_predicate_log.
    destruct (r_res (waitForWindow_predicate F index connectHandle w))
      as [e|[|]].
    + exists 1%nat. split; [lia | done].
    + exists 1%nat. split; [lia | done].
    + destruct (IH (elapsed + interval)%N
                  (r_world (waitForWindow_predicate F index connectHandle w)))
        as (k & Hk & ->).
      exists (S k). split; [lia | done].
Qed.

Lemma waitUntil_log {W} (predicate : Cmd W bool) (ms interval : N) (w : W) :
  r_log (waitUntil predicate ms interval w)
  = r_log (waitUntil_timed predicate ms interval w).
Proof.
  unfold waitUntil. rewrite bind_log.
  destruct (r_res (waitUntil_timed predicate ms interval w)); cbn;
    by rewrite app_nil_r.
Qed.

(** X13: with the polling wait as section 4.1 of the specification
    describes it, waitForWindow reads the current handle once, then asks for
    the window list at most ms/interval + 1 times (21 times with the defaults
    20000 and 1000), and switches window at most once, as the last primitive
    it issues. *)
Theorem waitForWindow_polls_bounded {W} (F : Facade W) (index : nat)
    (ms interval : option N) (w : W) :
  ∃ n,
    (n ≤ S (N.to_nat (or_default ms 20000 / or_default interval 1000)))%nat ∧
    (r_log (waitForWindow F index ms interval w)
     = WindowHandle :: replicate n WindowHandles ∨
     r_log (waitForWindow F index ms interval w)
     = WindowHandle :: replicate n WindowHandles ++ [WindowByIndex index]).
Proof.
  unfold waitForWindow. rewrite bind_log.
  assert (r_log (windowHandle F w) = [WindowHandle]) as ->
    by (unfold windowHandle; by destruct (f_windowHandle F w)).
  destruct (r_res (windowHandle F w)) as [e|response].
  { exists 0%nat. split; [apply Nat.le_0_l | by left]. }
  rewrite bind_log, waitUntil_log. unfold waitUntil_timed at 1 2.
  destruct (poll_window_log F index (responseValue response)
              (or_default interval 1000)
              (S (N.to_nat (or_default ms 20000 / or_default interval 1000)))
              0%N (r_world (windowHandle F w))) as (n & Hn & ->).
  exists n. split; [done|].
  destruct (r_res (waitUntil _ _ _ _)) as [e|[]].
  - left. by rewrite app_nil_r.
  - right. by rewrite act_log.
Qed.

(** ** Launching and stopping, continued *)

Section LaunchProperties.
Variable path_join : list string → string.
Variable existsSync : string → bool.
Variable electronPrebuilt : string.
Variable app_start : Application → error + unit.
Variable app_waitUntilWindowLoaded : Application → N → error + unit.

Lemma platform_supported (p : string) :
  p ∈ supported_platforms →
  is_Some (ELECTRON_EXECUTABLE_BY_PLATFORM path_join !! p).
Proof.
  unfold supported_platforms, ELECTRON_EXECUTABLE_BY_PLATFORM.
  rewrite !elem_of_cons, elem_of_nil.
  intros [->|[->|[->|[]]]]; by eexists.
Qed.

Lemma platform_unsupported (p : string) :
  p ∉ supported_platforms →
  ELECTRON_EXECUTABLE_BY_PLATFORM path_join !! p = None.
Proof.
  unfold supported_platforms, ELECTRON_EXECUTABLE_BY_PLATFORM.
  rewrite !not_elem_of_cons. intros (Hl & Hw & Hd & _).
  rewrite !lookup_insert_ne by done. by rewrite lookup_singleton_ne.
Qed.

(** X14: what createApplication returns.  With TEST_WITH_PREBUILT set to a
    non-empty string it builds the electron-prebuilt application on the
    parent of the dist directory, without looking at the platform, the file
    system or [assert].  Otherwise, on a platform other than linux, win32
    and darwin it fails with the TypeError of path.join, before [assert] is
    read; and on one of the three, with [assert] bound to Node's assert, it
    builds the application on the platform's executable under the dist
    directory when that file exists and fails with the "Release executable
    not found" assertion when it does not. *)
Theorem createApplication_outcome (g : globals) (proc : process)
    (distDir : string) :
  (test_with_prebuilt proc = true →
   createApplication path_join existsSync electronPrebuilt g proc distDir
   = inr {| app_path := electronPrebuilt;
            app_args := Some [path_join [distDir; ".."]];
            app_env := env proc;
            app_cwd := Some (path_join [distDir; ".."]) |}) ∧
  (test_with_prebuilt proc = false → platform proc ∉ supported_platforms →
   ∃ msg,
     createApplication path_join existsSync electronPrebuilt g proc distDir
     = inl (TypeError msg)) ∧
  (test_with_prebuilt proc = false → platform proc ∈ supported_platforms →
   g_assert g = Some node_assert →
   ∃ relative,
     ELECTRON_EXECUTABLE_BY_PLATFORM path_join !! platform proc
     = Some relative ∧
     createApplication path_join existsSync electronPrebuilt g proc distDir
     = if existsSync (path_join [distDir; relative])
       then inr {| app_path := path_join [distDir; relative];
                   app_args := None; app_env := env proc; app_cwd := None |}
       else inl (AssertionError executable_not_found)).
Proof.
  unfold createApplication, electronExecutable. repeat split.
  - by intros ->.
  - intros -> Hplatform. rewrite (platform_unsupported _ Hplatform).
    by eexists.
  - intros -> Hplatform ->.
    destruct (platform_supported _ Hplatform) as [relative Hrel].
    exists relative. rewrite Hrel. split; [done|]. unfold node_assert.
    by destruct (existsSync (path_join [distDir; relative])).
Qed.

(** X15: startApplication resolves with an application exactly when
    createApplication built it, its start() resolved and the window loaded
    within 20000 ms, and then the calls made are start, addCommands and
    waitUntilWindowLoaded(20000), in this order; and whatever the outcome,
    the commands are added only after start() resolved. *)
Theorem startApplication_resolves_iff (g : globals) (proc : process)
    (distDir : string) (log : list automation) (app : Application) :
  (startApplication path_join existsSync electronPrebuilt app_start
     app_waitUntilWindowLoaded g proc distDir = (log, inr app) ↔
   createApplication path_join existsSync electronPrebuilt g proc distDir
   = inr app ∧
   app_start app = inr tt ∧
   app_waitUntilWindowLoaded app 20000 = inr tt ∧
   log = [AppStart; AddCommands; WaitUntilWindowLoaded 20000]) ∧
  (AddCommands
     ∈ (startApplication path_join existsSync electronPrebuilt app_start
          app_waitUntilWindowLoaded g proc distDir).1 →
   ∃ created,
     createApplication path_join existsSync electronPrebuilt g proc distDir
     = inr created ∧ app_start created = inr tt).
Proof.
  unfold startApplication.
  destruct (createApplication _ _ _ g proc distDir) as [e|created].
  { split; [split; [discriminate | by intros [? _]]|].
    cbn. by rewrite elem_of_nil. }
  destruct (app_start created) as [e|[]] eqn:Hstart.
  { split.
    - split; [discriminate|]. intros ([= <-] & Hs & _). congruence.
    - cbn. rewrite list_elem_of_singleton. discriminate. }
  split; [|intros _; by exists created].
  destruct (app_waitUntilWindowLoaded created 20000) as [e|[]] eqn:Hloaded.
  - split; [discriminate|]. intros ([= <-] & _ & Hl & _). congruence.
  - split.
    + by intros [= <- <-].
    + by intros ([= <-] & _ & _ & ->).
Qed.

End LaunchProperties.

(** X16: stopApplication may be called twice: provided stop() leaves the
    application not running, a second stopApplication on what the first one
    left calls no stop, throws nothing, returns undefined and changes
    nothing. *)
Theorem stopApplication_twice (App : Type) (isRunning : App → bool)
    (stop : App → (error + unit) * App) (app : option App) :
  (∀ a, isRunning (stop a).2 = false) →
  let once := stopApplication App isRunning stop app in
  let twice := stopApplication App isRunning stop (s_app App once) in
  (CallStop ∉ s_calls App twice) ∧
  s_return App twice = inr None ∧
  s_app App twice = s_app App once.
Proof.
  intros Hstopped once twice. subst once twice. unfold stopApplication.
  destruct app as [a|]; cbn; [|split; [by_evaluation | done]].
  destruct (isRunning a) eqn:Hrun.
  - specialize (Hstopped a). destruct (stop a) as [deferred a']. cbn in *.
    rewrite Hstopped. cbn. split; [by_evaluation | done].
  - cbn. rewrite Hrun. cbn. split; [by_evaluation | done].
Qed.

Lemma stopApplication_twice_witness :
  let once := stopApplication bool id (λ _, (inr tt, false)) (Some true) in
  let twice := stopApplication bool id (λ _, (inr tt, false))
                 (s_app bool once) in
  (CallStop ∉ s_calls bool twice) ∧
  s_return bool twice = inr None ∧
  s_app bool twice = s_app bool once.
Proof.
  apply (stopApplication_twice bool id (λ _, (inr tt, false)) (Some true)).
  reflexivity.
Defined.

Lemma createApplication_outcome_witness :
  createApplication slash_join (λ _, false) "electron" sample_globals
    {| env := ∅; platform := "linux" |} "dist"
  = inl (AssertionError executable_not_found) ∧
  createApplication slash_join (λ _, false) "electron" node_globals
    {| env := {[ "TEST_WITH_PREBUILT" := "1" ]}; platform := "freebsd" |} "dist"
  = inr {| app_path := "electron"; app_args := Some ["dist/.."];
           app_env := {[ "TEST_WITH_PREBUILT" := "1" ]};
           app_cwd := Some "dist/.." |}.
Proof.
  split.
  - destruct (createApplication_outcome slash_join (λ _, false) "electron"
                sample_globals {| env := ∅; platform := "linux" |} "dist")
      as (_ & _ & Hrelease).
    destruct Hrelease as (relative & _ & Hcreate);
      [reflexivity | by_evaluation | reflexivity | exact Hcreate].
  - destruct (createApplication_outcome slash_join (λ _, false) "electron"
                node_globals
                {| env := {[ "TEST_WITH_PREBUILT" := "1" ]};
                   platform := "freebsd" |} "dist") as (Hprebuilt & _).
    exact (Hprebuilt eq_refl).
Defined.

Lemma fillOutForm_throws_iff_witness :
  fo_thrown (fillOutForm node_globals secured_model)
  = Some (ReferenceError "Connection") ∧
  ∀ p, p ∈ fo_steps (fillOutForm node_globals secured_model) → ¬ is_ssl_op p.
Proof.
  destruct (fillOutForm_throws_iff node_globals secured_model) as [_ Hthrown].
  split; [reflexivity|]. by destruct (Hthrown _ eq_refl) as (_ & _ & ?).
Defined.

Lemma bind_rejected {W A B} (c : Cmd W A) (k : A → Cmd W B) (w : W)
    (e : error) :
  r_res (c w) = inl e →
  bind c k w
  = {| r_log := r_log (c w); r_res := inl e; r_world := r_world (c w) |}.
Proof. unfold bind. by intros ->. Qed.

Lemma bind_resolved {W A B} (c : Cmd W A) (k : A → Cmd W B) (w : W) (a : A) :
  r_res (c w) = inr a →
  bind c k w
  = {| r_log := r_log (c w) ++ r_log (k a (r_world (c w)));
       r_res := r_res (k a (r_world (c w)));
       r_world := r_world (k a (r_world (c w))) |}.
Proof. unfold bind. by intros ->. Qed.

Lemma act_run {W} (F : Facade W) (p : prim) (w w' : W) (r : error + unit) :
  f_act F p w = (r, w') →
  act F p w = {| r_log := [p]; r_res := r; r_world := w' |}.
Proof. unfold act. by intros ->. Qed.

(** X17: connecting with authentication switched on while [Connection] is
    unbound fails: once the form is visible, gotoSchemaWindow is rejected
    with the ReferenceError for [Connection] and connect is never clicked. *)
Theorem gotoSchemaWindow_unbound_lookup {W} (F : Facade W) (g : globals)
    (connection : gmap string value) (ms : option N) (w w1 : W) :
  enabled (connection !! "authentication") = true →
  g_Connection g = None →
  f_act F (WaitForVisible "select[name=authentication]" None false) w
  = (inr tt, w1) →
  r_res (gotoSchemaWindow F g (Some connection) ms w)
  = inl (ReferenceError "Connection") ∧
  Click "button[name=connect]"
    ∉ r_log (gotoSchemaWindow F g (Some connection) ms w).
Proof.
  intros Hon Hg Hwait.
  assert (fo_thrown
            (fillOutForm g (defaults connection connection_defaults))
          = Some (ReferenceError "Connection")) as Hthrown.
  { rewrite fillOutForm_thrown, Hg.
    assert (defaults connection connection_defaults !! "authentication"
            = connection !! "authentication") as ->; [|by rewrite Hon].
    unfold defaults. destruct (connection !! "authentication") eqn:Hauth.
    - by apply lookup_union_Some_l.
    - by rewrite lookup_union_r. }
  set (filled := defaults connection connection_defaults) in *.
  assert (∀ w', r_res (fillOutFormCmd F g filled w')
               = inl (ReferenceError "Connection") ∧
               r_log (fillOutFormCmd F g filled w')
               = r_log (settle F (fo_steps (fillOutForm g filled)) w'))
    as Hfill by (intros w'; unfold fillOutFormCmd; by rewrite Hthrown).
  unfold gotoSchemaWindow.
  change (default ∅ (Some connection)) with connection. fold filled.
  rewrite (bind_resolved _ _ w tt) by (by rewrite (act_run F _ _ _ _ Hwait)).
  rewrite (act_run F _ _ _ _ Hwait). cbn [r_log r_res r_world].
  destruct (Hfill w1) as [Hres Hlog].
  rewrite (bind_rejected _ _ w1 (ReferenceError "Connection")) by done.
  cbn [r_log r_res r_world]. split; [done|].
  rewrite Hlog. intros Hin. apply elem_of_app in Hin as [Heq | Hin];
    [apply list_elem_of_singleton in Heq; discriminate|].
  apply settle_log_steps, fillOutForm_step_shape in Hin.
  by destruct Hin as [(? & ? & _ & _ & ?) | [(? & _ & ?) | (? & _ & ?)]].
Qed.

Lemma gotoSchemaWindow_unbound_lookup_witness :
  r_res (gotoSchemaWindow one_window node_globals (Some secured_model) None
           0%nat)
  = inl (ReferenceError "Connection") ∧
  Click "button[name=connect]"
    ∉ r_log (gotoSchemaWindow one_window node_globals (Some secured_model)
               None 0%nat).
Proof.
  apply (gotoSchemaWindow_unbound_lookup one_window node_globals
           secured_model None 0%nat 1%nat); reflexivity.
Defined.

(** ** Connecting, end to end *)

Lemma run_list_chain {W} (F : Facade W) (steps : list prim) (w w' : W) :
  chain F steps w w' →
  run_list F steps w = {| r_log := steps; r_res := inr tt; r_world := w' |}.
Proof.
  induction 1 as [w|step rest w w1 w2 Hstep Hrest IH]; [done|]. simpl.
  rewrite (bind_resolved _ _ w tt) by (by rewrite (act_run F _ _ _ _ Hstep)).
  rewrite (act_run F _ _ _ _ Hstep). cbn [r_log r_res r_world].
  by rewrite IH.
Qed.

(** X18: when fillOutForm returns, and the wait for the form, every step of
    the sequence and the click on connect succeed one after the other,
    gotoSchemaWindow has issued the wait, then the whole sequence built from
    the argument completed with the defaults, then the click, and from there
    on it issues and settles exactly as waitForWindow(0, ms) does.  The
    completed model keeps every key of the argument, and the sequence sets
    hostname to "localhost" and port to 27017 when the argument leaves them
    out. *)
Theorem gotoSchemaWindow_fills_and_connects {W} (F : Facade W) (g : globals)
    (connection : option (gmap string value)) (ms : option N)
    (w w1 w2 w3 : W) :
  let given := default ∅ connection in
  let filled := defaults given connection_defaults in
  f_act F (WaitForVisible "select[name=authentication]" None false) w
  = (inr tt, w1) →
  fo_thrown (fillOutForm g filled) = None →
  chain F (fo_steps (fillOutForm g filled)) w1 w2 →
  f_act F (Click "button[name=connect]") w2 = (inr tt, w3) →
  gotoSchemaWindow F g connection ms w
  = {| r_log :=
         WaitForVisible "select[name=authentication]" None false
         :: fo_steps (fillOutForm g filled)
         ++ Click "button[name=connect]"
         :: r_log (waitForWindow F 0 ms None w3);
       r_res := r_res (waitForWindow F 0 ms None w3);
       r_world := r_world (waitForWindow F 0 ms None w3) |} ∧
  (∀ k v, given !! k = Some v → filled !! k = Some v) ∧
  (given !! "hostname" = None →
   SetValue "input[name=hostname]" (VStr "localhost")
     ∈ fo_steps (fillOutForm g filled)) ∧
  (given !! "port" = None →
   SetValue "input[name=port]" (VNum 27017)
     ∈ fo_steps (fillOutForm g filled)).
Proof.
  intros given filled Hwait Hthrown Hchain Hclick.
  assert (∀ k, given !! k = None →
               filled !! k = connection_defaults !! k) as Hunset
    by (intros k Hk; by apply lookup_union_r).
  split; [|split; [|split]].
  - unfold gotoSchemaWindow. fold given filled.
    rewrite (bind_resolved _ _ w tt) by (by rewrite (act_run F _ _ _ _ Hwait)).
    rewrite (act_run F _ _ _ _ Hwait). cbn [r_log r_res r_world].
    assert (fillOutFormCmd F g filled w1
            = {| r_log := fo_steps (fillOutForm g filled); r_res := inr tt;
                 r_world := w2 |}) as Hfill.
    { unfold fillOutFormCmd. rewrite Hthrown, settle_run_list.
      by apply run_list_chain. }
    rewrite (bind_resolved _ _ w1 tt) by (by rewrite Hfill).
    rewrite Hfill. cbn [r_log r_res r_world].
    unfold clickConnect.
    rewrite (bind_resolved _ _ w2 tt) by (by rewrite (act_run F _ _ _ _ Hclick)).
    rewrite (act_run F _ _ _ _ Hclick). cbn [r_log r_res r_world].
    unfold waitForSchemaWindow. reflexivity.
  - intros k v Hk. by apply lookup_union_Some_l.
  - intros Hhost.
    apply (static_step_issued g _ "hostname"); [by_evaluation| |done].
    by rewrite Hunset.
  - intros Hport.
    apply (static_step_issued g _ "port"); [by_evaluation| |done].
    by rewrite Hunset.
Qed.

Lemma gotoSchemaWindow_fills_and_connects_witness :
  r_log (gotoSchemaWindow connecting node_globals None None (0%nat, None))
  = WaitForVisible "select[name=authentication]" None false
    :: fo_steps (fillOutForm node_globals (defaults ∅ connection_defaults))
    ++ Click "button[name=connect]"
    :: r_log (waitForWindow connecting 0 None None (4%nat, Some 0%nat)) ∧
  SetValue "input[name=hostname]" (VStr "localhost")
    ∈ fo_steps (fillOutForm node_globals (defaults ∅ connection_defaults)).
Proof.
  destruct (gotoSchemaWindow_fills_and_connects connecting node_globals None
              None (0%nat, None) (1%nat, None) (3%nat, None)
              (4%nat, Some 0%nat))
    as (Hrun & _ & Hhost & _).
  - reflexivity.
  - reflexivity.
  - repeat (econstructor; [reflexivity|]). constructor.
  - reflexivity.
  - split; [by rewrite Hrun | by apply Hhost].
Defined.

(** C5 (the code at the failing input): in a Node process, where
    [Connection] is unbound, gotoSchemaWindow({authentication: 'MONGODB'}) on
    a client whose every primitive succeeds waits for the form, fillOutForm
    throws at the lookup, the command is rejected with the ReferenceError for
    [Connection], and connect is never clicked: the only primitives that
    reach the client are the wait, the two defaults and the authentication
    select.  With the lookup bound the same call does click connect. *)
Theorem gotoSchemaWindow_authenticated_rejected :
  gotoSchemaWindow one_window node_globals
    (Some {[ "authentication" := VStr "MONGODB" ]}) None 0%nat
  = {| r_log :=
         [WaitForVisible "select[name=authentication]" None false;
          SetValue "input[name=hostname]" (VStr "localhost");
          SetValue "input[name=port]" (VNum 27017);
          SelectByValue "select[name=authentication]" (VStr "MONGODB")];
       r_res := inl (ReferenceError "Connection");
       r_world := 4%nat |} ∧
  Click "button[name=connect]"
    ∈ r_log (gotoSchemaWindow one_window sample_globals
               (Some {[ "authentication" := VStr "MONGODB" ]}) None 0%nat).
Proof. split; [vm_compute; reflexivity | by_evaluation]. Qed.
